(** * configService (src/app/core/config.service.js)

    A shallow embedding of the AngularJS service that loads the viewer's
    configuration, and the properties of its three operations
    [initialize], [getCurrent] and [ready].

    The service is a closure over two variables ([initializePromise],
    [isInitialized]) and one object ([service.data]).  It talks to four
    collaborators: [$rootElement] (two attributes), [angular.fromJson],
    [$http] and [$q].  Attribute values, the JSON reader and the defaults
    are section variables; [$http] answers arrive as events of a step
    function; of [$q] the development keeps what the service relies on: a
    promise is pending, resolved or rejected, it settles once, and the
    callbacks registered on it run when the callback queue is drained. *)

From stdpp Require Import gmap strings list pretty.
From Stdlib Require Import ZArith Ascii String.

Set Warnings "-register-all".

Local Open Scope Z_scope.
Local Open Scope string_scope.
Local Open Scope list_scope.
Local Open Scope stdpp_scope.

(** ** JavaScript values that reach the service *)

(** What [JSON.parse] can return.  Numbers are kept as integers: the
    service only tests a number for zero or prints it.  An object keeps
    its keys in insertion order. *)
Inductive json : Type :=
| JNull
| JBool (b : bool)
| JNum (z : Z)
| JStr (s : string)
| JArr (items : list json)
| JObj (fields : list (string * json)).

(** [if (v)] for a value [v]: [null], [false], [0] and the empty string
    are falsy, every array and object is truthy. *)
Definition truthy (v : json) : bool :=
  match v with
  | JNull => false
  | JBool b => b
  | JNum z => negb (Z.eqb z 0)
  | JStr s => negb (String.eqb s "")
  | JArr _ => true
  | JObj _ => true
  end.

(** [if (x)] for an [x] that is a string or [undefined]
    (an attribute, the result of a try block, a language tag). *)
Definition defined_truthy (x : option string) : bool :=
  match x with
  | Some s => negb (String.eqb s "")
  | None => false
  end.

(** [!x] for an [x] that is a parsed value or [undefined]. *)
Definition falsy_or_undefined (x : option json) : bool :=
  match x with
  | Some v => negb (truthy v)
  | None => true
  end.

(** [String(v)], as a property key or a replacement text is made from a
    value.  An array prints its items separated by commas, [null] items as
    nothing. *)
Fixpoint js_ToString (v : json) : string :=
  match v with
  | JNull => "null"
  | JBool true => "true"
  | JBool false => "false"
  | JNum z => pretty z
  | JStr s => s
  | JArr items =>
      (fix join (l : list json) : string :=
         match l with
         | [] => ""
         | x :: rest =>
             let shown := match x with JNull => "" | _ => js_ToString x end in
             match rest with
             | [] => shown
             | _ :: _ => shown +:+ "," +:+ join rest
             end
         end) items
  | JObj _ => "[object Object]"
  end.

(** ** Strings: [String.prototype.replace] and [split] *)

(** [strip_prefix p s] is the rest of [s] after the prefix [p]. *)
Fixpoint strip_prefix (p s : string) : option string :=
  match p with
  | EmptyString => Some s
  | String a p' =>
      match s with
      | EmptyString => None
      | String b s' => if Ascii.eqb a b then strip_prefix p' s' else None
      end
  end.

(** The leftmost occurrence of [pat] in [s]: what stands before it and
    what stands after it. *)
Fixpoint find_sub (pat s : string) : option (string * string) :=
  match strip_prefix pat s with
  | Some rest => Some (EmptyString, rest)
  | None =>
      match s with
      | EmptyString => None
      | String c s' =>
          match find_sub pat s' with
          | Some (before, after) => Some (String c before, after)
          | None => None
          end
      end
  end.

(** The replacement text of [replace] is a template of its own:
    [$$] stands for a dollar sign, [$&] for the matched text, [$`] and
    [$'] for the text before and after the match.  With a string pattern
    there are no capture groups, so any other [$] stands for itself. *)
Fixpoint get_substitution (matched before after repl : string) : string :=
  match repl with
  | EmptyString => EmptyString
  | String c r =>
      if Ascii.eqb c "$" then
        match r with
        | EmptyString => String c EmptyString
        | String d r' =>
            if Ascii.eqb d "$" then String "$" (get_substitution matched before after r')
            else if Ascii.eqb d "&" then matched +:+ get_substitution matched before after r'
            else if Ascii.eqb d "`" then before +:+ get_substitution matched before after r'
            else if Ascii.eqb d "'" then after +:+ get_substitution matched before after r'
            else String c (String d (get_substitution matched before after r'))
        end
      else String c (get_substitution matched before after r)
  end.

(** [s.replace(pat, repl)] for a string pattern: the leftmost occurrence
    only. *)
Definition js_replace (pat repl s : string) : string :=
  match find_sub pat s with
  | Some (before, after) =>
      before +:+ get_substitution pat before after repl +:+ after
  | None => s
  end.

(** [s.split(sep)[0]] for a separator that is not empty. *)
Definition split_head (sep s : string) : string :=
  match find_sub sep s with
  | Some (before, _) => before
  | None => s
  end.

(** ** [angular.merge] *)

(** The fields of an object, by key. *)
Fixpoint field_get (k : string) (fs : list (string * json)) : option json :=
  match fs with
  | [] => None
  | (k', v) :: fs' => if String.eqb k k' then Some v else field_get k fs'
  end.

(** The fields of a mapping; any other value has none. *)
Definition fields_of (v : json) : list (string * json) :=
  match v with
  | JObj fs => fs
  | _ => []
  end.

(** [obj[k] = v]: an existing key keeps its place, a new key goes last. *)
Fixpoint field_set (k : string) (v : json) (fs : list (string * json))
  : list (string * json) :=
  match fs with
  | [] => [(k, v)]
  | (k', v') :: fs' =>
      if String.eqb k k' then (k, v) :: fs' else (k', v') :: field_set k v fs'
  end.

(** The keys of [fs] written one after the other into [acc], each with the
    value [f] makes of what [acc] holds there and what [fs] brings. *)
Fixpoint merge_fields (f : option json -> json -> json)
    (fs acc : list (string * json)) : list (string * json) :=
  match fs with
  | [] => acc
  | (k, x) :: fs' => merge_fields f fs' (field_set k (f (field_get k acc) x) acc)
  end.

(** Modelled from the spec: [angular.merge] is AngularJS code, not part of
    this repository.  The spec's merge policy: the loaded configuration
    overrides the base key by key; where the overriding value is a mapping
    the merge recurses into it (starting from an empty mapping when the
    base has none there); any other overriding value replaces what the
    base holds.  [deep_value old v] is what the key holds afterwards. *)
Fixpoint deep_value (old : option json) (v : json) : json :=
  match v with
  | JObj fs =>
      JObj (merge_fields deep_value fs
              (match old with Some (JObj base) => base | _ => [] end))
  | _ => v
  end.

(** One source of [angular.merge(dst, src1, src2)] applied to [dst]; a
    source that is not a mapping contributes no key. *)
Definition merge_source (dst src : json) : json :=
  match src with
  | JObj _ => deep_value (Some dst) src
  | _ => dst
  end.

(** [angular.merge({}, defaults, config)]. *)
Definition angular_merge (defaults config : json) : json :=
  merge_source (merge_source (JObj []) defaults) config.

(** ** The runtime the service closes over *)

(** A [$q] promise as the service sees it.  The values promises carry
    play no part: [fulfill()] and [reject()] are called without one. *)
Inductive status : Type := Pending | Resolved | Rejected.

(** Promises made by [$q(...)] are named by the order of their making. *)
Abbreviation handle := nat.

(** A call either returns or throws a [TypeError]. *)
Inductive outcome (A : Type) : Type :=
| Returns (a : A)
| Throws.
Arguments Returns {A} a.
Arguments Throws {A}.

(** How the executor body ends. *)
Inductive completion : Type := Normal | Abrupt.

(** The lines the service writes to the console. *)
Inductive message : Type :=
| NotValidJson        (* Not valid JSON, attempting to load a file with this name *)
| CouldNotParseLangs  (* Could not parse langs, defaulting to en and fr *)
| ConfigInitFailed    (* Config initialization failed *)
| ErrorObject         (* console.log(error) *)
| ReadyResolved       (* Ready promise resolved. *)
| ReadyFailed.        (* "ready" function failed *)

(** A [$http.get] request that has not been answered: the promise whose
    executor issued it, the language of the [map] callback, the url. *)
Record request : Type := Request {
  rq_owner : handle;
  rq_lang : string;
  rq_url : string
}.

(** An answer of [$http]: a response, whose [data] field may be falsy
    (an empty body), or a failure. *)
Inductive response : Type :=
| HttpOk (body : json)
| HttpError.

(** The variables of the closure ([initializePromise], [isInitialized],
    [service.data]), the state of [$q] and [$http] they depend on, the
    console, and two counters the code does not have: how often the
    executor body was entered and the urls of every fan-out. *)
Record service : Type := Service {
  initializePromise : option handle;
  isInitialized : bool;
  data : gmap string json;
  promises : list status;
  settled : list (handle * status);
  inflight : list request;
  due : list handle;
  console : list message;
  executions : nat;
  fanouts : list (list string)
}.

(** The state when the factory function returns. *)
Definition fresh_service : service :=
  Service None false ∅ [] [] [] [] [] 0%nat [].

Definition with_initializePromise (p : option handle) (s : service) : service :=
  Service p (isInitialized s) (data s) (promises s) (settled s) (inflight s)
          (due s) (console s) (executions s) (fanouts s).

Definition with_isInitialized (b : bool) (s : service) : service :=
  Service (initializePromise s) b (data s) (promises s) (settled s) (inflight s)
          (due s) (console s) (executions s) (fanouts s).

Definition with_data (d : gmap string json) (s : service) : service :=
  Service (initializePromise s) (isInitialized s) d (promises s) (settled s)
          (inflight s) (due s) (console s) (executions s) (fanouts s).

Definition with_promise (h : handle) (st : status) (s : service) : service :=
  Service (initializePromise s) (isInitialized s) (data s) (<[h := st]> (promises s))
          (settled s ++ [(h, st)]) (inflight s) (due s) (console s)
          (executions s) (fanouts s).

Definition with_inflight (l : list request) (s : service) : service :=
  Service (initializePromise s) (isInitialized s) (data s) (promises s) (settled s)
          l (due s) (console s) (executions s) (fanouts s).

Definition with_due (l : list handle) (s : service) : service :=
  Service (initializePromise s) (isInitialized s) (data s) (promises s) (settled s)
          (inflight s) l (console s) (executions s) (fanouts s).

Definition log (ms : list message) (s : service) : service :=
  Service (initializePromise s) (isInitialized s) (data s) (promises s) (settled s)
          (inflight s) (due s) (console s ++ ms) (executions s) (fanouts s).

(** [$q(executor)] makes a pending promise before it runs the executor. *)
Definition new_promise (s : service) : service :=
  Service (initializePromise s) (isInitialized s) (data s) (promises s ++ [Pending])
          (settled s) (inflight s) (due s) (console s) (S (executions s)) (fanouts s).

(** [langs.map(lang => $http.get(...))]: the requests leave in list order. *)
Definition issue (rqs : list request) (s : service) : service :=
  Service (initializePromise s) (isInitialized s) (data s) (promises s) (settled s)
          (inflight s ++ rqs) (due s) (console s) (executions s)
          (fanouts s ++ [map rq_url rqs]).

Definition status_of (h : handle) (s : service) : status :=
  default Pending (promises s !! h).

(** [fulfill()] and [reject()] of a promise: the first call settles it,
    [$q] ignores every later one. *)
Definition settle (h : handle) (st : status) (s : service) : service :=
  match promises s !! h with
  | Some Pending => with_promise h st s
  | _ => s
  end.

Definition fulfill (h : handle) : service -> service := settle h Resolved.
Definition reject (h : handle) : service -> service := settle h Rejected.

(** Whether a request of promise [h] is still unanswered. *)
Definition awaited (h : handle) (s : service) : bool :=
  existsb (fun rq => Nat.eqb (rq_owner rq) h) (inflight s).

(** [$q.all(promises).then(callback)]: the callback is due at once when
    no promise of the array is pending. *)
Definition q_all_then (h : handle) (s : service) : service :=
  if awaited h s then s else with_due (due s ++ [h]) s.

(** ** The service *)

Section ConfigService.

(** [$rootElement.attr(name)]: the attribute's text, or [undefined]. *)
Variable attr : string -> option string.

(** [angular.fromJson] on a string: the value, or [None] where
    [JSON.parse] throws a [SyntaxError]. *)
Variable fromJson : string -> option json.

(** The injected [configDefaults]. *)
Variable configDefaults : json.

(** [configInitialized(config, lang)] (lines 138-143).  For the one
    [lang] that is ["__proto__"] the assignment of line 141 sets the
    prototype of [service.data]; the map keeps it under that key, and
    [lookup_data] reads it as such. *)
Definition configInitialized (config : json) (lang : string) (s : service)
  : service :=
  with_data (<[lang := angular_merge configDefaults config]> (data s)) s.

(** The [then] callback of one request (lines 108-112). *)
Definition on_fetched (rq : request) (body : json) (s : service) : service :=
  if truthy body then configInitialized body (rq_lang rq) s else s.

(** The [catch] callback of one request (lines 113-117). *)
Definition on_fetch_error (rq : request) (s : service) : service :=
  reject (rq_owner rq) (log [ConfigInitFailed; ErrorObject] s).

(** The [then] callback of [$q.all(promises)] (lines 124-128). *)
Definition on_all_loaded (h : handle) (s : service) : service :=
  fulfill h (with_isInitialized true s).

(** The request the [map] callback makes for one item of [langs]. *)
Definition request_for (h : handle) (configAttr : string) (lang : json)
  : request :=
  Request h (js_ToString lang) (js_replace "$LANG" (js_ToString lang) configAttr).

(** The language list as read from the attribute (lines 86-92):
    [undefined] when the attribute is missing or does not parse. *)
Definition parsed_langs : option json :=
  if defined_truthy (attr "rv-langs")
  then fromJson (default "" (attr "rv-langs"))
  else None.

(** The language list the fan-out maps over (lines 95-97). *)
Definition langs_or_default : json :=
  if falsy_or_undefined parsed_langs
  then JArr [JStr "en"; JStr "fr"]
  else default JNull parsed_langs.

(** The executor passed to [$q] (lines 65-132), for the promise [h]
    under construction.  [langs.map] of a value that is no array
    throws. *)
Definition executor (h : handle) (s : service) : completion * service :=
  let configAttr := attr "th-config" in
  let langAttr := attr "rv-langs" in
  if isInitialized s then (Normal, fulfill h s)
  else if defined_truthy configAttr then
    let raw := default "" configAttr in
    let configJson := fromJson raw in
    let s1 := match configJson with
              | Some c => configInitialized c "en" s
              | None => log [NotValidJson] s
              end in
    let s2 := if defined_truthy langAttr
              then match parsed_langs with
                   | Some _ => s1
                   | None => log [CouldNotParseLangs] s1
                   end
              else s1 in
    if falsy_or_undefined configJson then
      match langs_or_default with
      | JArr items =>
          (Normal, q_all_then h (issue (map (request_for h raw) items) s2))
      | _ => (Abrupt, s2)
      end
    else (Normal, with_due (due s2 ++ [h]) s2)
  else (Normal, configInitialized (JObj []) "en" s).

(** [initialize()] (lines 59-147).  [$q] calls the executor outside any
    [try] block, so an exception of the executor leaves [$q(...)] and
    this function before [initializePromise] is assigned. *)
Definition initialize (s : service) : outcome handle * service :=
  match initializePromise s with
  | Some h => (Returns h, s)
  | None =>
      let h := List.length (promises s) in
      match executor h (new_promise s) with
      | (Normal, s') => (Returns h, with_initializePromise (Some h) s')
      | (Abrupt, s') => (Throws, s')
      end
  end.

(** [$http] answers the [i]-th unanswered request: its [then] or its
    [catch] callback runs, and when that was the last request of the
    fan-out, the callback of [$q.all] runs after it. *)
Definition answer (i : nat) (r : response) (s : service) : service :=
  match inflight s !! i with
  | None => s
  | Some rq =>
      let s1 := with_inflight (delete i (inflight s)) s in
      let s2 := match r with
                | HttpOk body => on_fetched rq body s1
                | HttpError => on_fetch_error rq s1
                end in
      if awaited (rq_owner rq) s2 then s2 else on_all_loaded (rq_owner rq) s2
  end.

(** The callback queue of [$q] is drained. *)
Definition digest (s : service) : service :=
  fold_left (fun acc h => on_all_loaded h acc) (due s) (with_due [] s).

(** What can happen to the service from outside. *)
Inductive event : Type :=
| CallInitialize
| Digest
| Answer (i : nat) (r : response).

Definition step (e : event) (s : service) : service :=
  match e with
  | CallInitialize => snd (initialize s)
  | Digest => digest s
  | Answer i r => answer i r s
  end.

Definition run (es : list event) (s : service) : service :=
  fold_left (fun acc e => step e acc) es s.

(** What the calls of [initialize] in a run return, oldest first. *)
Fixpoint returned (es : list event) (s : service) : list (outcome handle) :=
  match es with
  | [] => []
  | CallInitialize :: es' => fst (initialize s) :: returned es' (step CallInitialize s)
  | e :: es' => returned es' (step e s)
  end.

(** [$translate]: the proposed language and the language in use, each a
    tag or [undefined]. *)
Record translate : Type := Translate {
  proposedLanguage : option string;
  use : option string
}.

(** [$translate.proposedLanguage() || $translate.use()] (line 154). *)
Definition current_tag (t : translate) : option string :=
  if defined_truthy (proposedLanguage t) then proposedLanguage t else use t.

(** [service.data] is an object literal (line 46): a key it does not hold
    itself is looked up in [Object.prototype].  These are the members of
    [Object.prototype] in ECMAScript, those of Annex B (which browsers
    implement) included; all but ["__proto__"], an accessor, are
    functions that an assignment to [service.data] shadows. *)
Definition Object_prototype : list string :=
  ["constructor"; "hasOwnProperty"; "isPrototypeOf"; "propertyIsEnumerable";
   "toLocaleString"; "toString"; "valueOf"; "__proto__";
   "__defineGetter__"; "__defineSetter__"; "__lookupGetter__";
   "__lookupSetter__"].

Definition inherited (key : string) : bool :=
  existsb (String.eqb key) Object_prototype.

(** What a read of [service.data[key]] gives: a value the service has
    stored, the member of [Object.prototype] of that name (a function, or
    for ["__proto__"] the prototype itself: never [undefined]), or
    [undefined]. *)
Inductive property : Type :=
| Stored (v : json)
| Inherited (name : string)
| Undefined.

(** [service.data[key]] (line 155).  What was stored under [key] is found
    first.  The key ["__proto__"] of the map is the prototype link of the
    object: [service.data[lang] = {}] (line 141) for that [lang] runs the
    setter [Object.prototype] has under this name, so the object made for
    that language becomes the prototype of [service.data], and its fields
    are found next.  The members of [Object.prototype] come last. *)
Definition lookup_data (key : string) (d : gmap string json) : property :=
  match d !! key with
  | Some v => Stored v
  | None =>
      match d !! "__proto__" ≫= λ proto, field_get key (fields_of proto) with
      | Some v => Stored v
      | None => if inherited key then Inherited key else Undefined
      end
  end.

(** [getCurrent()] (lines 153-156); [split] of [undefined] throws. *)
Definition getCurrent (t : translate) (s : service) : outcome property :=
  match current_tag t with
  | Some tag => Returns (lookup_data (split_head "-" tag) (data s))
  | None => Throws
  end.

End ConfigService.

(** ** [ready] *)

(** A promise of a chain, with the lines its callbacks have logged. *)
Definition chained : Type := status * list message.

(** [$q.all(ps)]: rejected as soon as one of [ps] is, resolved when all
    are. *)
Definition q_all (ps : list status) : status :=
  if existsb (fun p => match p with Rejected => true | _ => false end) ps
  then Rejected
  else if existsb (fun p => match p with Pending => true | _ => false end) ps
       then Pending
       else Resolved.

(** [p.then(callback)]: the callback runs when [p] is resolved, and the
    new promise follows what the callback returns; a rejection of [p]
    passes through. *)
Definition q_then (p : chained) (callback : chained) : chained :=
  match fst p with
  | Resolved => (fst callback, snd p ++ snd callback)
  | _ => p
  end.

(** [p.catch(callback)]: the callback runs when [p] is rejected. *)
Definition q_catch (p : chained) (callback : chained) : chained :=
  match fst p with
  | Rejected => (fst callback, snd p ++ snd callback)
  | _ => p
  end.

(** The promise [ready] returns (lines 164-171), from the state of
    [initializePromise] and of the promises in [nextPromises]. *)
Definition ready_promise (init : status) (nextPromises : list status) : chained :=
  q_catch
    (q_then (init, []) (q_all nextPromises, [ReadyResolved]))
    (Resolved, [ReadyFailed]).

(** [ready(nextPromises)] (lines 163-172); [then] of [undefined] throws. *)
Definition ready (nextPromises : list status) (s : service) : outcome chained :=
  match initializePromise s with
  | Some h => Returns (ready_promise (status_of h s) nextPromises)
  | None => Throws
  end.

(** ** Notions the properties are stated with *)


(** [pat] stands in [s] right after [pre], and nowhere further left. *)
Definition first_at (pat pre post s : string) : Prop :=
  s = pre +:+ pat +:+ post ∧
  ∀ b a, s = b +:+ pat +:+ a → (String.length pre ≤ String.length b)%nat.

(** [pat] stands nowhere in [s]. *)
Definition absent_from (pat s : string) : Prop :=
  ∀ b a, s ≠ b +:+ pat +:+ a.

Definition is_mapping (v : json) : bool :=
  match v with
  | JObj _ => true
  | _ => false
  end.

(** The changes of promise [h] out of pending that [$q] has made. *)
Definition settlements (h : handle) (s : service) : list (handle * status) :=
  filter (λ p, p.1 = h) (settled s).

(** What holds of the service once [initialize] has returned the handle
    [h]: the handle is stored, every unanswered request and every due
    callback belongs to it, and while a request is unanswered the handle
    has not been resolved. *)
Definition established (h : handle) (s : service) : Prop :=
  initializePromise s = Some h ∧
  (h < List.length (promises s))%nat ∧
  Forall (λ rq, rq_owner rq = h) (inflight s) ∧
  Forall (λ h', h' = h) (due s) ∧
  (inflight s ≠ [] → status_of h s ≠ Resolved ∧ due s = []) ∧
  settlements h s = match status_of h s with
                    | Pending => []
                    | st => [(h, st)]
                    end.

(** What holds of the service as long as no call of [initialize] has
    returned: nothing is stored, awaited, due or settled. *)
Definition dormant (s : service) : Prop :=
  initializePromise s = None ∧ isInitialized s = false ∧ inflight s = [] ∧
  due s = [] ∧ settled s = [] ∧ fanouts s = [].

(** The request an event answers, with the answer. *)
Definition answer_of (e : event) (s : service) : list (request * response) :=
  match e with
  | Answer i r =>
      match inflight s !! i with
      | Some rq => [(rq, r)]
      | None => []
      end
  | _ => []
  end.

(** The requests answered in a run, each with its answer, oldest first. *)
Fixpoint answered (attr : string → option string) (fromJson : string → option json)
    (configDefaults : json) (es : list event) (s : service)
  : list (request * response) :=
  match es with
  | [] => []
  | e :: es' =>
      answer_of e s ++ answered attr fromJson configDefaults es'
                         (step attr fromJson configDefaults e s)
  end.

(** ** Sample pages *)

(** A root element with the two attributes as given. *)
Definition page (config langs : option string) (name : string) : option string :=
  if String.eqb name "th-config" then config
  else if String.eqb name "rv-langs" then langs
  else None.

Definition quote : string := String (ascii_of_nat 34) EmptyString.

(** The text of an inline configuration, a title in a layout:
    an object with the key [layout], holding an object with the key
    [title] and the number 7. *)
Definition inline_text : string :=
  "{" +:+ quote +:+ "layout" +:+ quote +:+ ":{" +:+ quote +:+ "title"
      +:+ quote +:+ ":7}}".

Definition inline_value : json :=
  JObj [("layout", JObj [("title", JNum 7)])].

(** The text of a language list with one item, the two characters
    dollar sign and ampersand. *)
Definition odd_langs_text : string :=
  "[" +:+ quote +:+ "$&" +:+ quote +:+ "]".

(** [JSON.parse] on the texts the samples use; it throws on every other
    text they use (urls and url templates). *)
Definition sample_fromJson (text : string) : option json :=
  if String.eqb text inline_text then Some inline_value
  else if String.eqb text odd_langs_text then Some (JArr [JStr "$&"])
  else if String.eqb text "null" then Some JNull
  else None.

Definition sample_defaults : json :=
  JObj [("layout", JObj [("title", JNum 0); ("theme", JStr "light")]);
        ("version", JNum 1)].

(** The pages of the sample runs: no configuration; a url template; the
    inline configuration; the JSON text [null]; a url template with the
    odd language list. *)
Definition no_config : string → option string := page None None.
Definition template_page : string → option string :=
  page (Some "cfg.$LANG.json") None.
Definition inline_page : string → option string :=
  page (Some inline_text) None.
Definition null_page : string → option string := page (Some "null") None.

(** ** Notions of the further properties *)

(** What one answer writes into the store: the defaults merged with its
    data under the language of its request, when it carries data. *)
Definition write_answer (configDefaults : json) (d : gmap string json)
    (a : request * response) : gmap string json :=
  match a.2 with
  | HttpOk body =>
      if truthy body
      then <[rq_lang a.1 := angular_merge configDefaults body]> d
      else d
  | HttpError => d
  end.

(** The store [d] after the answers of [answers], oldest first. *)
Definition store_after (configDefaults : json)
    (answers : list (request * response)) (d : gmap string json)
  : gmap string json :=
  fold_left (write_answer configDefaults) answers d.

(** The flag is set exactly when nothing is awaited and nothing is due,
    and by then the handle is settled; a resolved handle has it set. *)
Definition flag_follows (h : handle) (s : service) : Prop :=
  (isInitialized s = true ↔ inflight s = [] ∧ due s = []) ∧
  (isInitialized s = true → status_of h s ≠ Pending) ∧
  (status_of h s = Resolved → isInitialized s = true).

(** How many of the answers are failures. *)
Definition failures (answers : list (request * response)) : nat :=
  List.length
    (List.filter (λ a, match a.2 with HttpError => true | HttpOk _ => false end)
       answers).

(** How often the console holds the line of a failed request. *)
Definition failure_lines (s : service) : nat :=
  List.length
    (List.filter (λ m, match m with ConfigInitFailed => true | _ => false end)
       (console s)).

(** How many calls of [initialize] a run makes. *)
Definition calls (es : list event) : nat :=
  List.length
    (List.filter (λ e, match e with CallInitialize => true | _ => false end) es).

(** A value that is no array. *)
Definition not_array (v : json) : bool :=
  match v with
  | JArr _ => false
  | _ => true
  end.

(** [pat] stands somewhere in [s]. *)
Definition occurs_in (pat s : string) : Prop :=
  ∃ b a, s = b +:+ pat +:+ a.

(** The text of a language list that is one JSON string, and the text
    of the empty list. *)
Definition string_langs_text : string := quote +:+ "en" +:+ quote.
Definition empty_langs_text : string := "[]".

(** The text of a list of two regional languages. *)
Definition regional_langs_text : string :=
  "[" +:+ quote +:+ "en-CA" +:+ quote +:+ "," +:+ quote +:+ "fr-CA"
      +:+ quote +:+ "]".

(** [JSON.parse] on these language lists; it throws on the url template. *)
Definition langs_fromJson (text : string) : option json :=
  if String.eqb text string_langs_text then Some (JStr "en")
  else if String.eqb text empty_langs_text then Some (JArr [])
  else if String.eqb text regional_langs_text
       then Some (JArr [JStr "en-CA"; JStr "fr-CA"])
  else if String.eqb text inline_text then Some inline_value
  else None.

Definition string_langs_page : string → option string :=
  page (Some "cfg.$LANG.json") (Some string_langs_text).
Definition empty_langs_page : string → option string :=
  page (Some "cfg.$LANG.json") (Some empty_langs_text).
Definition regional_page : string → option string :=
  page (Some "cfg.$LANG.json") (Some regional_langs_text).
Definition inline_string_langs_page : string → option string :=
  page (Some inline_text) (Some string_langs_text).

(** * Properties *)

(** ** Strings *)

Lemma app_empty s : EmptyString +:+ s = s.
Proof. reflexivity. Qed.

Lemma app_cons c b s : String c b +:+ s = String c (b +:+ s).
Proof. reflexivity. Qed.

Lemma strip_prefix_app p r : strip_prefix p (p +:+ r) = Some r.
Proof.
  induction p as [|a p IH]; [done|].
  rewrite app_cons. simpl. by rewrite Ascii.eqb_refl.
Qed.

Lemma strip_prefix_Some p s r : strip_prefix p s = Some r → s = p +:+ r.
Proof.
  revert s. induction p as [|a p IH]; intros s; simpl.
  - by intros [= ->].
  - destruct s as [|b s]; [done|].
    destruct (Ascii.eqb_spec a b) as [->|]; [|done].
    intros H. by rewrite (IH _ H).
Qed.

Lemma find_sub_Some pat s b a :
  find_sub pat s = Some (b, a) → s = b +:+ pat +:+ a.
Proof.
  revert b a. induction s as [|c s IH]; intros b a; simpl.
  - destruct (strip_prefix pat EmptyString) eqn:E; [|done].
    intros [= <- <-]. exact (strip_prefix_Some _ _ _ E).
  - destruct (strip_prefix pat (String c s)) eqn:E.
    + intros [= <- <-]. exact (strip_prefix_Some _ _ _ E).
    + destruct (find_sub pat s) as [[b' a']|] eqn:F; [|done].
      intros [= <- <-]. rewrite app_cons. by rewrite <- (IH _ _ eq_refl).
Qed.

Lemma find_sub_leftmost pat s b a :
  find_sub pat s = Some (b, a) →
  ∀ b' a', s = b' +:+ pat +:+ a' → (String.length b ≤ String.length b')%nat.
Proof.
  revert b a. induction s as [|c s IH]; intros b a; simpl.
  - destruct (strip_prefix pat EmptyString) eqn:E; [|done].
    intros [= <- <-] ? ? _. simpl. lia.
  - destruct (strip_prefix pat (String c s)) eqn:E.
    + intros [= <- <-] ? ? _. simpl. lia.
    + destruct (find_sub pat s) as [[b0 a0]|] eqn:F; [|done].
      intros [= <- <-] b' a' Hs. destruct b' as [|c' b'].
      * rewrite app_empty in Hs. rewrite Hs, strip_prefix_app in E. done.
      * rewrite app_cons in Hs. injection Hs as -> Hs. simpl.
        specialize (IH _ _ eq_refl _ _ Hs). lia.
Qed.

Lemma find_sub_None pat s : find_sub pat s = None → absent_from pat s.
Proof.
  induction s as [|c s IH]; simpl.
  - destruct (strip_prefix pat EmptyString) eqn:E; [done|].
    intros _ b a Hs. destruct b.
    + rewrite app_empty in Hs. by rewrite Hs, strip_prefix_app in E.
    + by rewrite app_cons in Hs.
  - destruct (strip_prefix pat (String c s)) eqn:E; [done|].
    destruct (find_sub pat s) as [[b0 a0]|] eqn:F; [done|].
    intros _ b a Hs. destruct b as [|c' b].
    + rewrite app_empty in Hs. by rewrite Hs, strip_prefix_app in E.
    + rewrite app_cons in Hs. injection Hs as -> Hs. by apply (IH eq_refl b a).
Qed.

Lemma app_same_length b b' x y :
  b +:+ x = b' +:+ y → String.length b = String.length b' → b = b' ∧ x = y.
Proof.
  revert b'. induction b as [|c b IH]; intros [|c' b']; simpl; try done.
  rewrite !app_cons. intros [= -> H] [= L]. destruct (IH _ H L) as [-> ->]. done.
Qed.

Lemma find_sub_first_at pat pre post s :
  first_at pat pre post s → find_sub pat s = Some (pre, post).
Proof.
  intros [Hs Hleft]. destruct (find_sub pat s) as [[b a]|] eqn:F.
  - pose proof (find_sub_Some _ _ _ _ F) as Hb.
    pose proof (find_sub_leftmost _ _ _ _ F _ _ Hs) as L1.
    pose proof (Hleft _ _ Hb) as L2.
    rewrite Hs in Hb.
    destruct (app_same_length _ _ _ _ Hb) as [-> Hrest]; [lia|].
    apply String.app_inj in Hrest. by subst.
  - by destruct (find_sub_None _ _ F _ _ Hs).
Qed.




(** ** Merging *)

Lemma field_get_set_eq k v fs : field_get k (field_set k v fs) = Some v.
Proof.
  induction fs as [|[k' v'] fs IH]; simpl.
  - by rewrite String.eqb_refl.
  - destruct (String.eqb_spec k k'); simpl.
    + by rewrite String.eqb_refl.
    + by destruct (String.eqb_spec k k').
Qed.

Lemma field_get_set_ne k k' v fs :
  k ≠ k' → field_get k (field_set k' v fs) = field_get k fs.
Proof.
  intros Hne. induction fs as [|[k0 v0] fs IH]; simpl.
  - by destruct (String.eqb_spec k k').
  - destruct (String.eqb_spec k' k0) as [<-|]; simpl.
    + by destruct (String.eqb_spec k k').
    + by destruct (String.eqb_spec k k0).
Qed.

Lemma field_get_None k (fs : list (string * json)) :
  k ∉ fs.*1 → field_get k fs = None.
Proof.
  induction fs as [|[k' v'] fs IH]; simpl; [done|].
  intros Hk. destruct (String.eqb_spec k k') as [->|].
  - destruct Hk. apply list_elem_of_here.
  - apply IH. intros ?. apply Hk. by apply list_elem_of_further.
Qed.

Lemma merge_fields_get f fs acc k :
  NoDup fs.*1 →
  field_get k (merge_fields f fs acc) =
    match field_get k fs with
    | Some v => Some (f (field_get k acc) v)
    | None => field_get k acc
    end.
Proof.
  revert acc. induction fs as [|[k' x] fs IH]; intros acc Hnd; simpl; [done|].
  apply NoDup_cons in Hnd as [Hk' Hnd]. simpl in Hk'. rewrite (IH _ Hnd).
  destruct (String.eqb_spec k k') as [->|Hne].
  - by rewrite (field_get_None _ _ Hk'), field_get_set_eq.
  - by rewrite (field_get_set_ne _ _ _ _ Hne).
Qed.

(** One layer of the merge, key by key: a key of the source takes the
    source's value, merged into what the target held; any other key keeps
    what the target held. *)
Lemma merge_source_get dst c k :
  NoDup c.*1 →
  field_get k (fields_of (merge_source dst (JObj c))) =
    match field_get k c with
    | Some v => Some (deep_value (field_get k (fields_of dst)) v)
    | None => field_get k (fields_of dst)
    end.
Proof.
  intros Hnd. unfold merge_source. simpl. rewrite (merge_fields_get _ _ _ _ Hnd).
  by destruct dst.
Qed.

Lemma deep_value_leaf old v : is_mapping v = false → deep_value old v = v.
Proof. by destruct v. Qed.

Lemma deep_value_mapping old fs :
  deep_value old (JObj fs) =
    merge_source (JObj (fields_of (default JNull old))) (JObj fs).
Proof. by destruct old as [[]|]. Qed.

(** ** The service after [initialize] has returned *)

Section Properties.

Variable attr : string → option string.
Variable fromJson : string → option json.
Variable configDefaults : json.

Local Abbreviation initialize := (initialize attr fromJson configDefaults).
Local Abbreviation executor := (executor attr fromJson configDefaults).
Local Abbreviation step := (step attr fromJson configDefaults).
Local Abbreviation run := (run attr fromJson configDefaults).
Local Abbreviation returned := (returned attr fromJson configDefaults).
Local Abbreviation answered := (answered attr fromJson configDefaults).
Local Abbreviation answer := (answer configDefaults).
Local Abbreviation on_fetched := (on_fetched configDefaults).
Local Abbreviation configInitialized := (configInitialized configDefaults).

Lemma settle_done h st s : status_of h s ≠ Pending → settle h st s = s.
Proof.
  unfold settle, status_of. by destruct (promises s !! h) as [[]|].
Qed.

Lemma settle_pending h st s :
  (h < List.length (promises s))%nat → status_of h s = Pending →
  settle h st s = with_promise h st s.
Proof.
  unfold settle, status_of. intros [x Hx]%lookup_lt_is_Some.
  rewrite Hx. simpl. by intros ->.
Qed.

Lemma status_of_settle h st s :
  (h < List.length (promises s))%nat →
  status_of h (settle h st s) =
    match status_of h s with Pending => st | old => old end.
Proof.
  intros Hlt. destruct (status_of h s) eqn:E.
  - rewrite settle_pending by done. unfold status_of. simpl.
    by rewrite list_lookup_insert_eq.
  - rewrite settle_done; [done | by rewrite E].
  - rewrite settle_done; [done | by rewrite E].
Qed.

Lemma settle_frame h st s :
  initializePromise (settle h st s) = initializePromise s ∧
  isInitialized (settle h st s) = isInitialized s ∧
  data (settle h st s) = data s ∧
  inflight (settle h st s) = inflight s ∧
  due (settle h st s) = due s ∧
  console (settle h st s) = console s ∧
  executions (settle h st s) = executions s ∧
  fanouts (settle h st s) = fanouts s ∧
  List.length (promises (settle h st s)) = List.length (promises s).
Proof.
  unfold settle. destruct (promises s !! h) as [[]|]; simpl;
    rewrite ?length_insert; done.
Qed.

(** Settling the stored handle keeps the service established, as long
    as it is not resolved over an unanswered request. *)
Lemma established_settle h st s :
  st ≠ Pending → (st = Resolved → inflight s = []) →
  established h s → established h (settle h st s).
Proof.
  intros Hst Hres (Hp & Hlt & Hown & Hdue & Hwait & Hlog).
  destruct (settle_frame h st s) as (E1 & _ & _ & E4 & E5 & _ & _ & _ & E9).
  unfold established. rewrite E1, E4, E5, E9, status_of_settle by done.
split_and!; try done.
- intros Hne. destruct (Hwait Hne) as [Hnr Hd]. split; [|done].
  destruct (status_of h s); [|done..]. intros ->. by apply Hne, Hres.
- destruct (status_of h s) eqn:E.
  + rewrite settle_pending by done. unfold settlements in *. simpl.
    rewrite filter_app, Hlog. simpl.
    rewrite filter_cons_True by done. by destruct st.
  + rewrite settle_done; [done | by rewrite E].
  + rewrite settle_done; [done | by rewrite E].
Qed.

(** A change of the service that leaves the stored handle, the promises
    and the two queues alone keeps it established. *)
Lemma established_frame h s s' :
  initializePromise s' = initializePromise s → promises s' = promises s →
  settled s' = settled s → inflight s' = inflight s → due s' = due s →
  established h s → established h s'.
Proof.
  unfold established, settlements, status_of.
  by intros -> -> -> -> ->.
Qed.

Lemma awaited_false_nil h s :
  Forall (λ rq, rq_owner rq = h) (inflight s) → awaited h s = false →
  inflight s = [].
Proof.
  unfold awaited. destruct (inflight s) as [|rq l]; [done|].
  intros [Hrq _]%Forall_cons. simpl. by rewrite Hrq, Nat.eqb_refl.
Qed.

Lemma awaited_true_cons h s : awaited h s = true → inflight s ≠ [].
Proof. unfold awaited. by destruct (inflight s). Qed.

(** The callback of [$q.all], run when nothing is awaited any more. *)
Lemma on_all_loaded_spec h s :
  established h s → inflight s = [] →
  established h (on_all_loaded h s) ∧
  data (on_all_loaded h s) = data s ∧
  inflight (on_all_loaded h s) = [] ∧
  due (on_all_loaded h s) = due s ∧
  executions (on_all_loaded h s) = executions s ∧
  fanouts (on_all_loaded h s) = fanouts s ∧
  status_of h (on_all_loaded h s) =
    match status_of h s with Pending => Resolved | old => old end.
Proof.
  intros Hs Hin. unfold on_all_loaded, fulfill.
  assert (established h (with_isInitialized true s)) as Hs'
    by (by apply (established_frame h s)).
  destruct (settle_frame h Resolved (with_isInitialized true s))
    as (_ & _ & E3 & E4 & E5 & _ & E7 & E8 & _).
  rewrite E3, E4, E5, E7, E8. simpl. split_and!; try done.
  - by apply established_settle.
  - destruct Hs as (_ & Hlt & _). by rewrite status_of_settle.
Qed.

(** The [catch] callback of a request of the stored handle. *)
Lemma on_fetch_error_spec h rq s :
  established h s → rq_owner rq = h →
  established h (on_fetch_error rq s) ∧
  data (on_fetch_error rq s) = data s ∧
  inflight (on_fetch_error rq s) = inflight s ∧
  due (on_fetch_error rq s) = due s ∧
  executions (on_fetch_error rq s) = executions s ∧
  fanouts (on_fetch_error rq s) = fanouts s ∧
  status_of h (on_fetch_error rq s) =
    match status_of h s with Pending => Rejected | old => old end.
Proof.
  intros Hs Hrq. subst h. unfold on_fetch_error, reject.
  set (s1 := log [ConfigInitFailed; ErrorObject] s).
  assert (established (rq_owner rq) s1) as Hs1
    by (by apply (established_frame _ s)).
  destruct (settle_frame (rq_owner rq) Rejected s1)
    as (_ & _ & E3 & E4 & E5 & _ & E7 & E8 & _).
  rewrite E3, E4, E5, E7, E8. simpl. split_and!; try done.
  - by apply established_settle.
  - destruct Hs as (_ & Hlt & _). by rewrite status_of_settle.
Qed.

(** The [then] callback of a request. *)
Lemma on_fetched_spec h rq body s :
  established h s →
  established h (on_fetched rq body s) ∧
  data (on_fetched rq body s) =
    (if truthy body
     then <[rq_lang rq := angular_merge configDefaults body]> (data s)
     else data s) ∧
  inflight (on_fetched rq body s) = inflight s ∧
  due (on_fetched rq body s) = due s ∧
  executions (on_fetched rq body s) = executions s ∧
  fanouts (on_fetched rq body s) = fanouts s ∧
  status_of h (on_fetched rq body s) = status_of h s.
Proof.
  intros Hs. unfold on_fetched. destruct (truthy body); [|done].
  split_and!; try done; by apply (established_frame h s).
Qed.

(** What one answer of [$http] does to an established service. *)
Lemma answer_spec h i r rq s :
  established h s → inflight s !! i = Some rq →
  established h (answer i r s) ∧
  inflight (answer i r s) = delete i (inflight s) ∧
  executions (answer i r s) = executions s ∧
  fanouts (answer i r s) = fanouts s ∧
  data (answer i r s) =
    match r with
    | HttpOk body =>
        if truthy body
        then <[rq_lang rq := angular_merge configDefaults body]> (data s)
        else data s
    | HttpError => data s
    end ∧
  status_of h (answer i r s) =
    match r, status_of h s with
    | HttpError, _ => Rejected
    | HttpOk _, Rejected => Rejected
    | HttpOk _, _ =>
        if bool_decide (delete i (inflight s) = []) then Resolved else Pending
    end.
Proof.
  intros Hs Hi. unfold answer. rewrite Hi.
  pose proof Hs as (Hp & Hlt & Hown & Hdue & Hwait & Hlog).
  assert (rq_owner rq = h) as Hrq.
  { by apply (Forall_lookup_1 _ _ _ _ Hown Hi). }
  assert (inflight s ≠ []) as Hne by (by intros E; rewrite E in Hi).
  destruct (Hwait Hne) as [Hnr Hd].
  set (s1 := with_inflight (delete i (inflight s)) s).
  assert (established h s1) as Hs1.
  { unfold established, s1, settlements, status_of. simpl. split_and!; try done.
    by apply Forall_delete. }
  assert (status_of h s1 = status_of h s) as Hst1 by done.
  set (s2 := match r with
             | HttpOk body => on_fetched rq body s1
             | HttpError => on_fetch_error rq s1
             end).
  assert (established h s2 ∧ inflight s2 = delete i (inflight s) ∧
          due s2 = [] ∧ executions s2 = executions s ∧
          fanouts s2 = fanouts s ∧
          data s2 = match r with
                    | HttpOk body =>
                        if truthy body
                        then <[rq_lang rq := angular_merge configDefaults body]> (data s)
                        else data s
                    | HttpError => data s
                    end ∧
          status_of h s2 = match r with
                           | HttpOk _ => status_of h s
                           | HttpError => Rejected
                           end) as (Hs2 & Hin2 & Hd2 & Hx2 & Hf2 & Hdata2 & Hst2).
  { unfold s2. destruct r as [body|].
    - destruct (on_fetched_spec h rq body s1 Hs1) as (? & E2 & E3 & E4 & E5 & E6 & E7).
      rewrite E2, E3, E4, E5, E6, E7. by split_and!.
    - destruct (on_fetch_error_spec h rq s1 Hs1 Hrq) as (? & E2 & E3 & E4 & E5 & E6 & E7).
      rewrite E2, E3, E4, E5, E6, E7, Hst1. split_and!; try done.
      by destruct (status_of h s). }
  rewrite Hrq. destruct (awaited h s2) eqn:Haw.
  - rewrite Hin2, Hx2, Hf2, Hdata2, Hst2. split_and!; try done.
    apply awaited_true_cons in Haw. rewrite Hin2 in Haw.
    rewrite bool_decide_eq_false_2 by done.
    destruct r; [|done]. by destruct (status_of h s).
  - destruct Hs2 as (? & ? & Hown2 & ?).
    pose proof (awaited_false_nil h s2 Hown2 Haw) as Hnil.
    assert (established h s2) as Hs2 by done.
    destruct (on_all_loaded_spec h s2 Hs2 Hnil) as (? & E2 & E3 & E4 & E5 & E6 & E7).
    rewrite E2, E3, E5, E6, E7, Hx2, Hf2, Hdata2, Hst2.
    rewrite <- Hin2, Hnil. split_and!; try done.
    destruct r; [|done]. by destruct (status_of h s).
Qed.

Lemma fold_on_all_loaded h l s :
  established h s → inflight s = [] → Forall (λ h', h' = h) l →
  let s' := fold_left (λ acc h', on_all_loaded h' acc) l s in
  established h s' ∧ data s' = data s ∧ inflight s' = [] ∧ due s' = due s ∧
  executions s' = executions s ∧ fanouts s' = fanouts s ∧
  status_of h s' =
    match l, status_of h s with
    | _ :: _, Pending => Resolved
    | _, old => old
    end.
Proof.
  revert s. induction l as [|h' l IH]; intros s Hs Hin Hl; simpl.
  - split_and!; try done; by destruct (status_of h s).
  - apply Forall_cons in Hl as [-> Hl].
    destruct (on_all_loaded_spec h s Hs Hin) as (Hs' & E2 & E3 & E4 & E5 & E6 & E7).
    destruct (IH _ Hs' E3 Hl) as (? & F2 & F3 & F4 & F5 & F6 & F7).
    rewrite F2, F3, F4, F5, F6, F7, E2, E4, E5, E6, E7. split_and!; try done.
    destruct l; by destruct (status_of h s).
Qed.

(** Draining the callback queue of an established service. *)
Lemma digest_spec h s :
  established h s →
  established h (digest s) ∧ data (digest s) = data s ∧
  inflight (digest s) = inflight s ∧ due (digest s) = [] ∧
  executions (digest s) = executions s ∧ fanouts (digest s) = fanouts s ∧
  status_of h (digest s) =
    match due s, status_of h s with
    | _ :: _, Pending => Resolved
    | _, old => old
    end.
Proof.
  intros Hs. pose proof Hs as (Hp & Hlt & Hown & Hdue & Hwait & Hlog).
  unfold digest. destruct (inflight s) as [|rq rest] eqn:Hin.
  - assert (established h (with_due [] s)) as Hs0.
    { unfold established, settlements, status_of. simpl. by rewrite Hin. }
    destruct (fold_on_all_loaded h (due s) (with_due [] s) Hs0 Hin Hdue)
      as (? & F2 & F3 & F4 & F5 & F6 & F7).
    rewrite F2, F3, F4, F5, F6, F7. by split_and!.
  - destruct Hwait as [Hnr Hd]; [done|]. rewrite Hd. simpl.
    split_and!; try done.
    unfold established, settlements, status_of. simpl. rewrite Hin.
    by split_and!.
Qed.

Lemma initialize_established h s :
  established h s → initialize s = (Returns h, s).
Proof. intros (Hp & _). unfold initialize. by rewrite Hp. Qed.

(** One event on an established service: it stays established, nothing
    is executed or requested again, and a settled handle stays as it is. *)
Lemma step_spec h e s :
  established h s →
  established h (step e s) ∧
  executions (step e s) = executions s ∧
  fanouts (step e s) = fanouts s ∧
  (status_of h s ≠ Pending → status_of h (step e s) = status_of h s) ∧
  (inflight s = [] → inflight (step e s) = [] ∧ data (step e s) = data s).
Proof.
  intros Hs. destruct e as [| |i r]; simpl.
  - by rewrite (initialize_established h s Hs).
  - destruct (digest_spec h s Hs) as (? & E2 & E3 & E4 & E5 & E6 & E7).
    rewrite E2, E3, E5, E6, E7. split_and!; try done.
    destruct (due s); by destruct (status_of h s).
  - destruct (inflight s !! i) as [rq|] eqn:Hi.
    + destruct (answer_spec h i r rq s Hs Hi) as (? & E2 & E3 & E4 & E5 & E6).
      rewrite E2, E3, E4, E6. split_and!; try done.
      * destruct Hs as (_ & _ & _ & _ & Hwait & _).
        destruct Hwait as [Hnr _]; [by intros E; rewrite E in Hi|].
        destruct r; by destruct (status_of h s).
      * intros E. by rewrite E in Hi.
    + unfold answer. by rewrite Hi.
Qed.

Lemma run_app es1 es2 s : run (es1 ++ es2) s = run es2 (run es1 s).
Proof. unfold run. by rewrite fold_left_app. Qed.

Lemma run_spec h es s :
  established h s →
  established h (run es s) ∧
  executions (run es s) = executions s ∧
  fanouts (run es s) = fanouts s ∧
  (status_of h s ≠ Pending → status_of h (run es s) = status_of h s) ∧
  (inflight s = [] → inflight (run es s) = [] ∧ data (run es s) = data s).
Proof.
  revert s. induction es as [|e es IH]; intros s Hs; [done|].
  change (run (e :: es) s) with (run es (step e s)).
  destruct (step_spec h e s Hs) as (Hs' & E2 & E3 & E4 & E5).
  destruct (IH _ Hs') as (? & F2 & F3 & F4 & F5).
  rewrite F2, F3, E2, E3. split_and!; try done.
  - intros Hne. rewrite F4; rewrite E4; done.
  - intros Hin. destruct (E5 Hin) as [G1 G2]. destruct (F5 G1) as [G3 G4].
    by rewrite G4, G2.
Qed.

(** Every call on an established service returns the stored handle. *)
Lemma returned_established h es s :
  established h s → Forall (λ r, r = Returns h) (returned es s).
Proof.
  revert s. induction es as [|e es IH]; intros s Hs; [done|].
  pose proof (step_spec h e s Hs) as (Hs' & _).
  destruct e; simpl; try by apply IH.
  apply Forall_cons. split; [by rewrite (initialize_established h s Hs)|].
  by apply IH.
Qed.

(** With nothing awaited and nothing due, no event changes the service. *)
Lemma step_quiescent h e s :
  established h s → inflight s = [] → due s = [] → step e s = s.
Proof.
  intros Hs Hin Hd. destruct e as [| |i r]; simpl.
  - by rewrite (initialize_established h s Hs).
  - unfold digest. rewrite Hd. simpl. destruct s. simpl in *. by subst.
  - unfold answer. by rewrite Hin.
Qed.

Lemma run_quiescent h es s :
  established h s → inflight s = [] → due s = [] → run es s = s.
Proof.
  intros Hs Hin Hd. induction es as [|e es IH]; [done|].
  change (run (e :: es) s) with (run es (step e s)).
  by rewrite (step_quiescent h e s).
Qed.

(** ** The first call *)

Lemma established_plain h s :
  dormant s → promises s !! h = Some Pending →
  established h (with_initializePromise (Some h) s).
Proof.
  intros (Hp & Hi & Hin & Hd & Hset & Hf) Hh.
  unfold established, settlements, status_of. simpl.
  rewrite Hin, Hd, Hset, Hh. split_and!; try done.
  by apply lookup_lt_Some in Hh.
Qed.

Lemma established_due h s :
  dormant s → promises s !! h = Some Pending →
  established h (with_initializePromise (Some h) (with_due (due s ++ [h]) s)).
Proof.
  intros (Hp & Hi & Hin & Hd & Hset & Hf) Hh.
  unfold established, settlements, status_of. simpl.
  rewrite Hin, Hd, Hset, Hh. split_and!; try done.
  - by apply lookup_lt_Some in Hh.
  - by apply Forall_singleton.
Qed.

Lemma established_issue h raw items s :
  dormant s → promises s !! h = Some Pending →
  established h
    (with_initializePromise (Some h)
       (q_all_then h (issue (map (request_for h raw) items) s))).
Proof.
  intros (Hp & Hi & Hin & Hd & Hset & Hf) Hh.
  assert (h < List.length (promises s))%nat as Hlt by (by apply lookup_lt_Some in Hh).
  unfold q_all_then, awaited, issue. simpl. rewrite Hin. simpl.
  destruct items as [|lang items]; simpl.
  - unfold established, settlements, status_of. simpl.
    rewrite Hd, Hset, Hh. split_and!; try done. by apply Forall_singleton.
  - rewrite Nat.eqb_refl. simpl.
    unfold established, settlements, status_of. simpl.
    rewrite Hd, Hset, Hh. split_and!; try done.
    apply Forall_cons. split; [done|]. by apply Forall_map, Forall_true.
Qed.

(** The executor on a service where no call has returned yet: either it
    throws and leaves the service dormant, or what it leaves is
    established once the handle is stored. *)
Lemma executor_spec h s c s' :
  dormant s → promises s !! h = Some Pending → executor h s = (c, s') →
  executions s' = executions s ∧
  promises s' = promises s ∧
  match c with
  | Abrupt => dormant s'
  | Normal =>
      established h (with_initializePromise (Some h) s') ∧
      (List.length (fanouts s') ≤ 1)%nat
  end.
Proof.
  intros Hs Hh. pose proof Hs as (Hp & Hi & Hin & Hd & Hset & Hf).
  unfold executor. rewrite Hi.
  destruct (defined_truthy (attr "th-config")).
  - set (raw := default "" (attr "th-config")).
    set (s1 := match fromJson raw with
               | Some c0 => configInitialized c0 "en" s
               | None => log [NotValidJson] s
               end).
    set (s2 := if defined_truthy (attr "rv-langs")
               then match parsed_langs attr fromJson with
                    | Some _ => s1
                    | None => log [CouldNotParseLangs] s1
                    end
               else s1).
    assert (dormant s2 ∧ promises s2 = promises s ∧
            executions s2 = executions s) as (Hs2 & Hp2 & Hx2).
    { unfold s2, s1.
      destruct (defined_truthy (attr "rv-langs")),
        (parsed_langs attr fromJson), (fromJson raw); done. }
    assert (promises s2 !! h = Some Pending) as Hh2 by (by rewrite Hp2).
    destruct (falsy_or_undefined (fromJson raw)).
    + destruct (langs_or_default attr fromJson) as [| | | |items|];
        intros [= <- <-]; try done.
      assert (∀ t, executions (q_all_then h t) = executions t ∧
                   promises (q_all_then h t) = promises t ∧
                   fanouts (q_all_then h t) = fanouts t) as Hq.
      { intros t. unfold q_all_then. by destruct (awaited h t). }
      destruct (Hq (issue (map (request_for h raw) items) s2)) as (-> & -> & Hfan).
      split_and!; try done.
      * by apply established_issue.
      * simpl. rewrite Hfan. simpl.
        destruct Hs2 as (_ & _ & _ & _ & _ & ->). simpl. lia.
    + intros [= <- <-]. split_and!; try done.
      * by apply established_due.
      * simpl. destruct Hs2 as (_ & _ & _ & _ & _ & ->). simpl. lia.
  - intros [= <- <-]. split_and!; try done.
    + by apply (established_plain h (configInitialized (JObj []) "en" s)).
    + simpl. rewrite Hf. simpl. lia.
Qed.

Lemma dormant_fresh : dormant fresh_service.
Proof. done. Qed.

(** A call of [initialize] on a dormant service. *)
Lemma initialize_dormant s r s' :
  dormant s → initialize s = (r, s') →
  match r with
  | Throws => dormant s'
  | Returns h =>
      h = List.length (promises s) ∧ established h s' ∧
      executions s' = S (executions s) ∧ (List.length (fanouts s') ≤ 1)%nat
  end.
Proof.
  intros Hs. pose proof Hs as (Hp & _). unfold initialize. rewrite Hp.
  set (h := List.length (promises s)).
  destruct (executor h (new_promise s)) as [c s1] eqn:E.
  assert (dormant (new_promise s)) as Hn by done.
  assert (promises (new_promise s) !! h = Some Pending) as Hh.
  { simpl. unfold h. by rewrite lookup_app_r, Nat.sub_diag by lia. }
  destruct (executor_spec h _ c s1 Hn Hh E) as (Hx & Hps & Hc).
  destruct c; intros [= <- <-]; [|done].
  destruct Hc as [Hest Hfan]. by split_and!.
Qed.


(** ** Answers *)

Lemma answered_cons e es s :
  answered (e :: es) s = answer_of e s ++ answered es (step e s).
Proof. done. Qed.

(** One event changes an entry of the store only by answering a request
    for its language with data. *)
Lemma step_data h e s k :
  established h s →
  data (step e s) !! k = data s !! k ∨
  ∃ rq body, answer_of e s = [(rq, HttpOk body)] ∧ rq_lang rq = k ∧
    truthy body = true ∧
    data (step e s) !! k = Some (angular_merge configDefaults body).
Proof.
  intros Hs. destruct e as [| |i r].
  - left. simpl. by rewrite (initialize_established h s Hs).
  - left. simpl. by destruct (digest_spec h s Hs) as (_ & -> & _).
  - simpl. destruct (inflight s !! i) as [rq|] eqn:Hi.
    + destruct (answer_spec h i r rq s Hs Hi) as (_ & _ & _ & _ & E & _).
      rewrite E. destruct r as [body|]; [|by left].
      destruct (truthy body) eqn:Ht; [|by left].
      destruct (decide (rq_lang rq = k)) as [Hl|Hl].
      * right. exists rq, body. rewrite Hl. by rewrite lookup_insert_eq.
      * left. by rewrite lookup_insert_ne.
    + left. unfold answer. by rewrite Hi.
Qed.

(** An entry of the store stays, or is overwritten by a later answer for
    the same language. *)
Lemma data_kept h es s k v :
  established h s → data s !! k = Some v →
  data (run es s) !! k = Some v ∨
  ∃ rq body, (rq, HttpOk body) ∈ answered es s ∧ rq_lang rq = k ∧
    truthy body = true ∧
    data (run es s) !! k = Some (angular_merge configDefaults body).
Proof.
  revert s v. induction es as [|e es IH]; intros s v Hs Hk; [by left|].
  change (run (e :: es) s) with (run es (step e s)). rewrite answered_cons.
  pose proof (step_spec h e s Hs) as (Hs' & _).
  destruct (step_data h e s k Hs) as [Hsame | (rq & body & Ha & Hl & Ht & Hd)].
  - rewrite <- Hsame in Hk.
    destruct (IH _ _ Hs' Hk) as [? | (rq & body & Hm & ?)]; [by left|].
    right. exists rq, body. split; [|done]. apply elem_of_app. by right.
  - destruct (IH _ _ Hs' Hd) as [? | (rq' & body' & Hm & ?)].
    + right. exists rq, body. split_and!; try done.
      apply elem_of_app. left. rewrite Ha. by apply list_elem_of_singleton.
    + right. exists rq', body'. split; [|done]. apply elem_of_app. by right.
Qed.

(** One event keeps a rejected handle rejected, and rejects the handle
    when it is the failure of a request. *)
Lemma step_rejected h e s :
  established h s →
  (status_of h s = Rejected ∨ ∃ rq, (rq, HttpError) ∈ answer_of e s) →
  status_of h (step e s) = Rejected.
Proof.
  intros Hs [Hrej | [rq Hrq]].
  - destruct (step_spec h e s Hs) as (_ & _ & _ & Hkeep & _).
    rewrite Hkeep; [done | by rewrite Hrej].
  - destruct e as [| |i r]; simpl in Hrq; try by apply elem_of_nil in Hrq.
    destruct (inflight s !! i) as [rq'|] eqn:Hi; [|by apply elem_of_nil in Hrq].
    apply list_elem_of_singleton in Hrq as [= <- <-]. simpl.
    by destruct (answer_spec h i HttpError rq s Hs Hi) as (_ & _ & _ & _ & _ & ->).
Qed.

(** An answer with data writes the entry of its language. *)
Lemma answer_of_data h e s rq body :
  established h s → (rq, HttpOk body) ∈ answer_of e s → truthy body = true →
  data (step e s) !! rq_lang rq = Some (angular_merge configDefaults body).
Proof.
  intros Hs Hm Ht.
  destruct e as [| |i r]; simpl in Hm; try by apply elem_of_nil in Hm.
  destruct (inflight s !! i) as [rq1|] eqn:Hi; [|by apply elem_of_nil in Hm].
  apply list_elem_of_singleton in Hm as [= <- <-].
  destruct (answer_spec h i (HttpOk body) rq s Hs Hi) as (_ & _ & _ & _ & E & _).
  simpl. rewrite E, Ht. by rewrite lookup_insert_eq.
Qed.

(** One event moves the request it answers out of the awaited ones. *)
Lemma step_inflight h e s :
  established h s →
  map fst (answer_of e s) ++ inflight (step e s) ≡ₚ inflight s.
Proof.
  intros Hs. destruct e as [| |i r]; simpl.
  - by rewrite (initialize_established h s Hs).
  - by destruct (digest_spec h s Hs) as (_ & _ & -> & _).
  - destruct (inflight s !! i) as [rq|] eqn:Hi.
    + destruct (answer_spec h i r rq s Hs Hi) as (_ & -> & _).
      simpl. symmetry. by apply delete_Permutation.
    + unfold answer. by rewrite Hi.
Qed.

(** The answers of a run on an established service: every answered
    request was awaited and is awaited no more; a failed one leaves the
    handle rejected; a language answered with data has an entry. *)
Lemma answered_spec h es s :
  established h s →
  map fst (answered es s) ++ inflight (run es s) ≡ₚ inflight s ∧
  ((status_of h s = Rejected ∨ ∃ rq, (rq, HttpError) ∈ answered es s) →
   status_of h (run es s) = Rejected) ∧
  (∀ rq body, (rq, HttpOk body) ∈ answered es s → truthy body = true →
   ∃ rq' body', (rq', HttpOk body') ∈ answered es s ∧
     rq_lang rq' = rq_lang rq ∧ truthy body' = true ∧
     data (run es s) !! rq_lang rq = Some (angular_merge configDefaults body')).
Proof.
  revert s. induction es as [|e es IH]; intros s Hs.
  { simpl. split_and!; try done.
    - intros [? | [rq Hrq]]; [done|]. by apply elem_of_nil in Hrq.
    - intros rq body Hrq. by apply elem_of_nil in Hrq. }
  change (run (e :: es) s) with (run es (step e s)). rewrite answered_cons.
  pose proof (step_spec h e s Hs) as (Hs' & _).
  destruct (IH _ Hs') as (IH1 & IH2 & IH3).
  split_and!.
  - rewrite map_app, <- app_assoc, IH1. by apply (step_inflight h).
  - intros Hcase. apply IH2.
    destruct Hcase as [Hrej | [rq [Hrq | Hrq]%elem_of_app]].
    + left. apply (step_rejected h); [done | by left].
    + left. apply (step_rejected h); [done | right; by exists rq].
    + right. by exists rq.
  - intros rq body [Hm | Hm]%elem_of_app Ht.
    + pose proof (answer_of_data h e s rq body Hs Hm Ht) as Hnow.
      destruct (data_kept h es _ _ _ Hs' Hnow)
        as [Hl | (rq' & body' & Hm' & Hl' & Ht' & Hd')].
      * exists rq, body. split_and!; try done. apply elem_of_app. by left.
      * exists rq', body'. split_and!; try done. apply elem_of_app. by right.
    + destruct (IH3 _ _ Hm Ht) as (rq' & body' & Hm' & Hl' & Ht' & Hd').
      exists rq', body'. split_and!; try done. apply elem_of_app. by right.
Qed.

(** ** The three ways of the first call *)

Lemma initialize_absent :
  defined_truthy (attr "th-config") = false →
  initialize fresh_service =
    (Returns 0%nat,
     Service (Some 0%nat) false
       {[ "en" := angular_merge configDefaults (JObj []) ]}
       [Pending] [] [] [] [] 1%nat []).
Proof.
  intros H. unfold initialize, executor. simpl. rewrite H.
  unfold configInitialized. simpl. by rewrite insert_empty.
Qed.

Lemma truthy_attr raw : raw ≠ EmptyString → defined_truthy (Some raw) = true.
Proof. intros H. simpl. by destruct (String.eqb_spec raw ""). Qed.

Lemma initialize_inline raw c :
  attr "th-config" = Some raw → raw ≠ EmptyString →
  fromJson raw = Some c → truthy c = true →
  initialize fresh_service =
    (Returns 0%nat,
     Service (Some 0%nat) false
       {[ "en" := angular_merge configDefaults c ]}
       [Pending] [] [] [0%nat]
       (if defined_truthy (attr "rv-langs")
        then match parsed_langs attr fromJson with
             | Some _ => []
             | None => [CouldNotParseLangs]
             end
        else [])
       1%nat []).
Proof.
  intros Ha Hraw Hc Ht. unfold initialize, executor. simpl.
  rewrite Ha, (truthy_attr _ Hraw). simpl. rewrite Hc. simpl. rewrite Ht. simpl.
  unfold configInitialized. simpl. rewrite insert_empty.
  by destruct (defined_truthy (attr "rv-langs")), (parsed_langs attr fromJson).
Qed.

Lemma initialize_url raw items :
  attr "th-config" = Some raw → raw ≠ EmptyString →
  falsy_or_undefined (fromJson raw) = true →
  langs_or_default attr fromJson = JArr items →
  initialize fresh_service =
    (Returns 0%nat,
     Service (Some 0%nat) false
       (match fromJson raw with
        | Some c => {[ "en" := angular_merge configDefaults c ]}
        | None => ∅
        end)
       [Pending] [] (map (request_for 0 raw) items)
       (match items with [] => [0%nat] | _ :: _ => [] end)
       (match fromJson raw with Some _ => [] | None => [NotValidJson] end ++
        if defined_truthy (attr "rv-langs")
        then match parsed_langs attr fromJson with
             | Some _ => []
             | None => [CouldNotParseLangs]
             end
        else [])
       1%nat
       [map (λ lang, js_replace "$LANG" (js_ToString lang) raw) items]).
Proof.
  intros Ha Hraw Hc Hl. unfold initialize, executor. simpl.
  rewrite Ha, (truthy_attr _ Hraw). simpl. rewrite Hc, Hl.
  unfold q_all_then, awaited, issue, configInitialized. simpl.
  rewrite map_map. simpl.
  destruct items as [|lang items]; simpl;
    destruct (fromJson raw), (defined_truthy (attr "rv-langs")),
      (parsed_langs attr fromJson); simpl; rewrite ?insert_empty; done.
Qed.

(** ** Reading the store *)

Lemma lookup_data_stored key d v :
  d !! key = Some v → lookup_data key d = Stored v.
Proof. intros H. unfold lookup_data. by rewrite H. Qed.

(** As long as no language named ["__proto__"] has been stored, a key
    without an entry is looked up in [Object.prototype] alone. *)
Lemma lookup_data_plain key d :
  d !! key = None → d !! "__proto__" = None →
  lookup_data key d = if inherited key then Inherited key else Undefined.
Proof. intros H Hp. unfold lookup_data. by rewrite H, Hp. Qed.

Lemma lookup_data_not_stored key d v :
  d !! key = None → d !! "__proto__" = None → lookup_data key d ≠ Stored v.
Proof.
  intros H Hp. rewrite (lookup_data_plain _ _ H Hp). by destruct (inherited key).
Qed.

(** ** The claims *)

(** C1 (the code departs from the claim).  With no [th-config] attribute
    (or an empty one) the first call returns a handle and stores the
    merge of the defaults alone under ["en"], as the claim says; but the
    executor never calls [fulfill] on this path, so whatever happens
    afterwards the handle stays pending and [ready([])] with it. *)
Theorem absent_config_never_settles (es : list event) :
  defined_truthy (attr "th-config") = false →
  let s0 := snd (initialize fresh_service) in
  fst (initialize fresh_service) = Returns 0%nat ∧
  data s0 = {[ "en" := angular_merge configDefaults (JObj []) ]} ∧
  status_of 0 s0 = Pending ∧
  status_of 0 (run es s0) = Pending ∧
  ready [] (run es s0) = Returns (Pending, []).
Proof.
  intros H. rewrite (initialize_absent H). simpl.
  set (s0 := Service _ _ _ _ _ _ _ _ _ _).
  assert (established 0 s0) as Hs.
  { unfold established, settlements, status_of. simpl. split_and!; try done. lia. }
  rewrite (run_quiescent 0 es s0 Hs) by done. done.
Qed.


(** C3 (amended).  Once a call of [initialize] has returned a handle,
    every call returns that handle, however many there are and whatever
    happens between them; the executor (reading the attributes, parsing
    them, fanning out the requests) has run exactly once, and at most one
    fan-out was ever issued.  (A call that throws stores no handle, and
    the next call runs the executor again.) *)
Theorem initialize_idempotent (es : list event) (h : handle) :
  head (returned es fresh_service) = Some (Returns h) →
  Forall (λ r, r = Returns h) (returned es fresh_service) ∧
  executions (run es fresh_service) = 1%nat ∧
  (List.length (fanouts (run es fresh_service)) ≤ 1)%nat.
Proof.
  induction es as [|e es IH]; [done|].
  change (run (e :: es) fresh_service) with (run es (step e fresh_service)).
  destruct e as [| |i r]; [|exact IH|exact IH].
  simpl. destruct (initialize fresh_service) as [r s0] eqn:E. simpl.
  intros [= ->].
  destruct (initialize_dormant _ _ _ dormant_fresh E) as (_ & Hs & Hx & Hf).
  destruct (run_spec h es s0 Hs) as (_ & -> & -> & _).
  split_and!; try done.
  apply Forall_cons. split; [done|]. by apply returned_established.
Qed.

(** C4 (amended).  For an inline JSON text whose value is truthy, the
    first call stores the merge of the defaults with that value under
    ["en"] and nowhere else, requests nothing, and whatever happens
    afterwards [getCurrent] with the current language ["en"] returns that
    merge.  The merge works key by key: a key of the configuration takes
    the configuration's value, merged into what the defaults hold when it
    is a mapping and as it is otherwise. *)
Theorem inline_config_stored_under_en
    (raw : string) (c : json) (es : list event) (t : translate) (tag : string) :
  attr "th-config" = Some raw → raw ≠ EmptyString →
  fromJson raw = Some c → truthy c = true →
  current_tag t = Some tag → split_head "-" tag = "en" →
  let s0 := snd (initialize fresh_service) in
  fst (initialize fresh_service) = Returns 0%nat ∧
  data (run es s0) = {[ "en" := angular_merge configDefaults c ]} ∧
  fanouts (run es s0) = [] ∧
  inflight (run es s0) = [] ∧
  getCurrent t (run es s0) = Returns (Stored (angular_merge configDefaults c)) ∧
  angular_merge configDefaults c
    = merge_source (merge_source (JObj []) configDefaults) c ∧
  (∀ dst src k, NoDup src.*1 →
     field_get k (fields_of (merge_source dst (JObj src))) =
       match field_get k src with
       | Some v => Some (deep_value (field_get k (fields_of dst)) v)
       | None => field_get k (fields_of dst)
       end) ∧
  (∀ old fs, deep_value old (JObj fs)
             = merge_source (JObj (fields_of (default JNull old))) (JObj fs)) ∧
  (∀ old v, is_mapping v = false → deep_value old v = v).
Proof.
  intros Ha Hraw Hc Ht Htag Hen. simpl.
  pose proof (initialize_inline raw c Ha Hraw Hc Ht) as E.
  destruct (initialize_dormant _ _ _ dormant_fresh E) as (_ & Hs & _ & _).
  rewrite E. simpl. set (s0 := Service _ _ _ _ _ _ _ _ _ _) in *.
  destruct (run_spec 0 es s0 Hs) as (_ & _ & Hf & _ & Hq).
  destruct Hq as [Hin Hdata]; [done|].
  rewrite Hf, Hin, Hdata. unfold getCurrent. rewrite Htag, Hen, Hdata. simpl.
  rewrite (lookup_data_stored "en" _ _ (lookup_singleton_eq _ _)).
  split_and!; try done.
  - intros. by apply merge_source_get.
  - intros. by apply deep_value_mapping.
  - intros. by apply deep_value_leaf.
Qed.


Lemma q_all_pending extra :
  q_all extra = Pending ↔ (Rejected ∉ extra) ∧ (Pending ∈ extra).
Proof.
  unfold q_all.
  destruct (existsb _ extra) eqn:E1.
  - apply existsb_exists in E1 as (x & Hx%list_elem_of_In & Hr).
    destruct x; try done. split; [done|]. intros [Hn _]. by destruct Hn.
  - assert (Rejected ∉ extra) as Hnr.
    { intros Hin%list_elem_of_In.
      assert (existsb (λ p, match p with Rejected => true | _ => false end) extra
              = true) as E by (apply existsb_exists; by exists Rejected).
      by rewrite E in E1. }
    destruct (existsb (λ p, match p with Pending => true | _ => false end) extra) eqn:E2.
    + apply existsb_exists in E2 as (x & Hx%list_elem_of_In & Hp).
      destruct x; try done.
    + split; [done|]. intros [_ Hin%list_elem_of_In].
      assert (existsb (λ p, match p with Pending => true | _ => false end) extra
              = true) as E by (apply existsb_exists; by exists Pending).
      by rewrite E in E2.
Qed.

Lemma q_all_rejected extra : q_all extra = Rejected ↔ Rejected ∈ extra.
Proof.
  unfold q_all.
  destruct (existsb _ extra) eqn:E1.
  - apply existsb_exists in E1 as (x & Hx%list_elem_of_In & Hr).
    by destruct x.
  - split.
    + destruct (existsb (λ p, match p with Pending => true | _ => false end) extra);
        intros; discriminate.
    + intros Hin%list_elem_of_In.
      assert (existsb (λ p, match p with Rejected => true | _ => false end) extra
              = true) as E by (apply existsb_exists; by exists Rejected).
      by rewrite E in E1.
Qed.

(** C6 (amended).  [ready(extra)] waits on the handle of [initialize].
    While the handle is pending, so is the promise of [ready].  When the
    handle is resolved, the promise follows [$q.all(extra)]: pending as
    long as no promise of [extra] is rejected and one is pending,
    resolved otherwise (after the rejection was logged, if there was
    one).  When the handle is rejected, the promise is resolved at once,
    whatever the state of [extra]. *)
Theorem ready_waits_on_extra_after_success
    (s : service) (h : handle) (extra : list status) :
  initializePromise s = Some h →
  ready extra s = Returns (ready_promise (status_of h s) extra) ∧
  ready_promise Pending extra = (Pending, []) ∧
  ready_promise Resolved extra =
    (match q_all extra with Pending => Pending | _ => Resolved end,
     ReadyResolved :: match q_all extra with Rejected => [ReadyFailed] | _ => [] end) ∧
  (q_all extra = Pending ↔ (Rejected ∉ extra) ∧ (Pending ∈ extra)) ∧
  (q_all extra = Rejected ↔ Rejected ∈ extra) ∧
  ready_promise Rejected extra = (Resolved, [ReadyFailed]).
Proof.
  intros Hp. unfold ready. rewrite Hp. split_and!; try done.
  - unfold ready_promise, q_catch, q_then. simpl. by destruct (q_all extra).
  - apply q_all_pending.
  - apply q_all_rejected.
Qed.

(** C7 (amended).  Once the handle of [initialize] is settled, resolved
    or rejected, [ready([])] returns a promise that is resolved; a
    rejection of the handle is logged by [ready] and goes no further. *)
Theorem ready_settles_once_handle_settled (s : service) (h : handle) :
  initializePromise s = Some h → status_of h s ≠ Pending →
  ready [] s =
    Returns (Resolved,
             match status_of h s with
             | Rejected => [ReadyFailed]
             | _ => [ReadyResolved]
             end).
Proof.
  intros Hp Hst. unfold ready. rewrite Hp. by destruct (status_of h s).
Qed.

Lemma default_langs :
  parsed_langs attr fromJson = None →
  langs_or_default attr fromJson = JArr [JStr "en"; JStr "fr"].
Proof. unfold langs_or_default. by intros ->. Qed.

Lemma undeclared_or_unparsable_langs :
  (attr "rv-langs" = None ∨
   ∃ l, attr "rv-langs" = Some l ∧ fromJson l = None) →
  parsed_langs attr fromJson = None.
Proof.
  unfold parsed_langs. intros [-> | (l & -> & Hl)]; [done|].
  simpl. by destruct (negb _).
Qed.

(** C8.  When the [th-config] attribute holds a text that is not JSON,
    the first call logs that, returns a handle all the same, and treats
    the text as a url template: with no [rv-langs] attribute, or one that
    does not parse, it requests the template once for ["en"] and once for
    ["fr"], in this order, with the same text as the template both times.
    Nothing is stored yet and the handle is pending; it is resolved when
    both requests are answered. *)
Theorem malformed_json_falls_through (raw : string) :
  attr "th-config" = Some raw → raw ≠ EmptyString → fromJson raw = None →
  (attr "rv-langs" = None ∨
   ∃ l, attr "rv-langs" = Some l ∧ fromJson l = None) →
  let url lang := js_replace "$LANG" lang raw in
  let s0 := snd (initialize fresh_service) in
  fst (initialize fresh_service) = Returns 0%nat ∧
  head (console s0) = Some NotValidJson ∧
  inflight s0 = [Request 0 "en" (url "en"); Request 0 "fr" (url "fr")] ∧
  fanouts s0 = [[url "en"; url "fr"]] ∧
  data s0 = ∅ ∧
  status_of 0 s0 = Pending ∧
  ∀ i b1 b2, (i ≤ 1)%nat →
    status_of 0 (run [Answer i (HttpOk b1); Answer 0 (HttpOk b2)] s0) = Resolved.
Proof.
  intros Ha Hraw Hc Hl. simpl.
  pose proof (undeclared_or_unparsable_langs Hl) as Hp.
  assert (falsy_or_undefined (fromJson raw) = true) as Hf by (by rewrite Hc).
  rewrite (initialize_url raw _ Ha Hraw Hf (default_langs Hp)).
  rewrite Hc. simpl. split_and!; try done.
  intros i b1 b2 Hi. unfold run, answer, on_fetched, on_all_loaded, fulfill, settle.
  destruct i as [|[|i]]; [| |lia]; simpl;
    destruct (truthy b1), (truthy b2); reflexivity.
Qed.

(** C9 (amended).  [getCurrent] takes the proposed language when there is
    one (defined and not empty) and the language in use otherwise, cuts
    the tag at its first hyphen, and reads [service.data] under that key.
    An entry stored under the key is returned.  Without one, and with no
    language named ["__proto__"] stored, the result is the member of
    [Object.prototype] the key names, and [undefined] only when it names
    none; in general it is [undefined] exactly when the key names neither
    a member of [Object.prototype] nor a field of the configuration stored
    under ["__proto__"]. *)
Theorem getCurrent_by_primary_subtag (t : translate) (s : service) :
  (∀ p, proposedLanguage t = Some p → p ≠ EmptyString →
        getCurrent t s = Returns (lookup_data (split_head "-" p) (data s))) ∧
  (∀ u, defined_truthy (proposedLanguage t) = false → use t = Some u →
        getCurrent t s = Returns (lookup_data (split_head "-" u) (data s))) ∧
  (∀ tag pre post, first_at "-" pre post tag → split_head "-" tag = pre) ∧
  (∀ tag, absent_from "-" tag → split_head "-" tag = tag) ∧
  split_head "-" "fr-CA" = "fr" ∧
  (∀ tag v, current_tag t = Some tag → data s !! split_head "-" tag = Some v →
            getCurrent t s = Returns (Stored v)) ∧
  (∀ tag, current_tag t = Some tag → data s !! split_head "-" tag = None →
          data s !! "__proto__" = None →
          getCurrent t s =
            Returns (if inherited (split_head "-" tag)
                     then Inherited (split_head "-" tag) else Undefined)) ∧
  (∀ tag, current_tag t = Some tag → data s !! split_head "-" tag = None →
          (getCurrent t s = Returns Undefined ↔
           inherited (split_head "-" tag) = false ∧
           (data s !! "__proto__"
              ≫= λ proto, field_get (split_head "-" tag) (fields_of proto)) = None)).
Proof.
  split_and!.
  - intros p Hp Hne. unfold getCurrent, current_tag.
    by rewrite Hp, (truthy_attr _ Hne).
  - intros u Hp Hu. unfold getCurrent, current_tag. by rewrite Hp, Hu.
  - intros tag pre post Hf. unfold split_head.
    by rewrite (find_sub_first_at _ _ _ _ Hf).
  - intros tag Ha. unfold split_head.
    destruct (find_sub "-" tag) as [[b a]|] eqn:F; [|done].
    by destruct (Ha _ _ (find_sub_Some _ _ _ _ F)).
  - done.
  - intros tag v Ht Hd. unfold getCurrent.
    by rewrite Ht, (lookup_data_stored _ _ _ Hd).
  - intros tag Ht Hd Hp. unfold getCurrent.
    by rewrite Ht, (lookup_data_plain _ _ Hd Hp).
  - intros tag Ht Hd. unfold getCurrent, lookup_data. rewrite Ht, Hd.
    destruct (data s !! "__proto__" ≫= _) as [v|]; [by split; [|intros [_ ?]]|].
    destruct (inherited (split_head "-" tag)); split; try done. by intros [? _].
Qed.


(** ** Two more properties of the first call *)

(** X1.  For the url template ["cfg.$LANG.json"] and the languages
    ["en"] and ["fr"], the first call requests ["cfg.en.json"] and
    ["cfg.fr.json"]; when both are answered with data, in either order,
    the store has exactly the two entries ["en"] and ["fr"] and the
    handle is resolved. *)
Theorem two_languages_two_entries (i : nat) (b1 b2 : json) :
  attr "th-config" = Some "cfg.$LANG.json" →
  fromJson "cfg.$LANG.json" = None →
  langs_or_default attr fromJson = JArr [JStr "en"; JStr "fr"] →
  (i ≤ 1)%nat → truthy b1 = true → truthy b2 = true →
  let s0 := snd (initialize fresh_service) in
  let s := run [Answer i (HttpOk b1); Answer 0 (HttpOk b2)] s0 in
  fanouts s0 = [["cfg.en.json"; "cfg.fr.json"]] ∧
  dom (data s) = {[ "en"; "fr" ]} ∧
  status_of 0 s = Resolved.
Proof.
  intros Ha Hc Hl Hi Ht1 Ht2. simpl.
  assert ("cfg.$LANG.json" ≠ EmptyString) as Hne by discriminate.
  assert (falsy_or_undefined (fromJson "cfg.$LANG.json") = true) as Hf
    by (by rewrite Hc).
  rewrite (initialize_url _ _ Ha Hne Hf Hl). rewrite Hc. simpl.
  split; [reflexivity|].
  unfold run, answer, on_fetched, on_all_loaded, fulfill, settle, configInitialized.
  destruct i as [|[|i]]; [| |lia]; simpl; rewrite Ht1, Ht2; simpl;
    (split; [|reflexivity]); rewrite !dom_insert_L, dom_empty_L; set_solver.
Qed.

(** X2.  For an inline JSON text whose value is truthy, the handle is
    pending when the first call returns and resolved as soon as the
    callback queue is drained, and it stays resolved. *)
Theorem inline_config_resolves_on_digest
    (raw : string) (c : json) (es : list event) :
  attr "th-config" = Some raw → raw ≠ EmptyString →
  fromJson raw = Some c → truthy c = true →
  let s0 := snd (initialize fresh_service) in
  status_of 0 s0 = Pending ∧
  status_of 0 (digest s0) = Resolved ∧
  isInitialized (digest s0) = true ∧
  status_of 0 (run es (digest s0)) = Resolved.
Proof.
  intros Ha Hraw Hc Ht. simpl.
  pose proof (initialize_inline raw c Ha Hraw Hc Ht) as E.
  destruct (initialize_dormant _ _ _ dormant_fresh E) as (_ & Hs & _ & _).
  rewrite E. simpl. set (s0 := Service _ _ _ _ _ _ _ _ _ _) in *.
  destruct (digest_spec 0 s0 Hs) as (Hs' & _ & _ & _ & _ & _ & Hst).
  assert (status_of 0 (digest s0) = Resolved) as Hres by done.
  destruct (run_spec 0 es _ Hs') as (_ & _ & _ & Hkeep & _).
  split_and!; try done. rewrite Hkeep; [done | by rewrite Hres].
Qed.

(** ** The store *)

Lemma store_after_app d l1 l2 :
  store_after configDefaults (l1 ++ l2) d
  = store_after configDefaults l2 (store_after configDefaults l1 d).
Proof. unfold store_after. by rewrite fold_left_app. Qed.

(** One event writes into the store what the request it answers brings,
    and nothing else. *)
Lemma step_store h e s :
  established h s →
  data (step e s) = store_after configDefaults (answer_of e s) (data s).
Proof.
  intros Hs. destruct e as [| |i r]; simpl.
  - by rewrite (initialize_established h s Hs).
  - by destruct (digest_spec h s Hs) as (_ & -> & _).
  - destruct (inflight s !! i) as [rq|] eqn:Hi.
    + by destruct (answer_spec h i r rq s Hs Hi) as (_ & _ & _ & _ & -> & _).
    + unfold answer. by rewrite Hi.
Qed.

Lemma run_store h es s :
  established h s →
  data (run es s) = store_after configDefaults (answered es s) (data s).
Proof.
  revert s. induction es as [|e es IH]; intros s Hs; [done|].
  change (run (e :: es) s) with (run es (step e s)).
  rewrite answered_cons, store_after_app.
  destruct (step_spec h e s Hs) as (Hs' & _).
  by rewrite (IH _ Hs'), (step_store h e s Hs).
Qed.

(** An entry of [store_after] was there before or was written by an
    answer with data for its language. *)
Lemma store_after_lookup answers d k v :
  store_after configDefaults answers d !! k = Some v →
  d !! k = Some v ∨
  ∃ rq body, (rq, HttpOk body) ∈ answers ∧ rq_lang rq = k ∧
    truthy body = true ∧ v = angular_merge configDefaults body.
Proof.
  revert d. induction answers as [|[rq r] answers IH]; intros d; [by left|].
  change (store_after configDefaults ((rq, r) :: answers) d)
    with (store_after configDefaults answers (write_answer configDefaults d (rq, r))).
  intros [Hd | (rq' & body & Hm & ?)]%IH.
  - unfold write_answer in Hd. simpl in Hd. destruct r as [body|]; [|by left].
    destruct (truthy body) eqn:Ht; [|by left].
    destruct (decide (rq_lang rq = k)) as [Hk|Hk].
    + rewrite Hk, lookup_insert_eq in Hd. injection Hd as <-.
      right. exists rq, body. split_and!; try done. apply list_elem_of_here.
    + rewrite lookup_insert_ne in Hd by done. by left.
  - right. exists rq', body. split; [|done]. by apply list_elem_of_further.
Qed.

(** An entry of the store of an established service was there at the
    start of the run or was written by an answer with data to one of the
    requests awaited at the start. *)
Lemma run_store_lookup h es s k v :
  established h s → data (run es s) !! k = Some v →
  data s !! k = Some v ∨
  ∃ rq body, (rq, HttpOk body) ∈ answered es s ∧ rq ∈ inflight s ∧
    rq_lang rq = k ∧ truthy body = true ∧
    v = angular_merge configDefaults body.
Proof.
  intros Hs Hk. rewrite (run_store h es s Hs) in Hk.
  destruct (store_after_lookup _ _ _ _ Hk) as [? | (rq & body & Hm & Hl & Ht & Hv)];
    [by left|].
  right. exists rq, body. split_and!; try done.
  destruct (answered_spec h es s Hs) as (Hperm & _).
  rewrite <- Hperm. apply elem_of_app. left.
  apply list_elem_of_fmap. by exists (rq, HttpOk body).
Qed.

(** X3.  Once a call of [initialize] has returned, the store is what the
    answers of [$http] make of it, in the order they arrive: each answer
    that carries data overwrites the entry of its language with the
    defaults merged with that data, and nothing else (no further call,
    no digest, no failure, no answer without data) touches the store. *)
Theorem store_follows_the_answers (es : list event) (h : handle) :
  fst (initialize fresh_service) = Returns h →
  let s0 := snd (initialize fresh_service) in
  data (run es s0) = store_after configDefaults (answered es s0) (data s0) ∧
  (∀ k v, data (run es s0) !! k = Some v →
     data s0 !! k = Some v ∨
     ∃ rq body, (rq, HttpOk body) ∈ answered es s0 ∧ rq ∈ inflight s0 ∧
       rq_lang rq = k ∧ truthy body = true ∧
       v = angular_merge configDefaults body).
Proof.
  destruct (initialize fresh_service) as [r s0] eqn:E. simpl. intros ->.
  destruct (initialize_dormant _ _ _ dormant_fresh E) as (_ & Hs & _).
  split; [by apply (run_store h)|]. intros k v. by apply (run_store_lookup h).
Qed.

(** ** Languages with a region *)

Lemma string_app_assoc a b c : (a +:+ b) +:+ c = a +:+ (b +:+ c).
Proof.
  induction a as [|x a IH]; [done|]. rewrite !app_cons. by rewrite IH.
Qed.

Lemma string_length_app a b :
  String.length (a +:+ b) = (String.length a + String.length b)%nat.
Proof.
  induction a as [|x a IH]; [done|]. rewrite app_cons. simpl. by rewrite IH.
Qed.

(** What stands before the leftmost occurrence holds no occurrence. *)
Lemma find_sub_before_clean pat s b a :
  pat ≠ EmptyString → find_sub pat s = Some (b, a) → absent_from pat b.
Proof.
  intros Hpat F b' a' Hb.
  pose proof (find_sub_Some _ _ _ _ F) as Hs.
  assert (s = b' +:+ pat +:+ (a' +:+ pat +:+ a)) as Hs'.
  { rewrite Hs, Hb. by rewrite !string_app_assoc. }
  pose proof (find_sub_leftmost _ _ _ _ F _ _ Hs') as Hle.
  rewrite Hb, !string_length_app in Hle.
  destruct pat as [|c pat]; [done|]. simpl in Hle. lia.
Qed.

(** [s.split(sep)[0]] holds no separator. *)
Lemma split_head_clean sep s :
  sep ≠ EmptyString → absent_from sep (split_head sep s).
Proof.
  intros Hsep. unfold split_head.
  destruct (find_sub sep s) as [[b a]|] eqn:F.
  - by apply (find_sub_before_clean sep s b a).
  - by apply find_sub_None.
Qed.

(** X4.  When every language of the list holds a hyphen (a region, as in
    ["fr-CA"]), the url-template branch stores every configuration under
    a key with a hyphen, and [getCurrent], which cuts the tag at its
    first hyphen before it looks up, finds none of them, whatever the
    language in use and whatever has been answered: it returns
    [undefined], or the member of [Object.prototype] the key names. *)
Theorem regional_languages_are_never_read
    (raw : string) (items : list json) (es : list event) (t : translate) :
  attr "th-config" = Some raw → raw ≠ EmptyString → fromJson raw = None →
  langs_or_default attr fromJson = JArr items →
  Forall (λ lang, occurs_in "-" (js_ToString lang)) items →
  let s0 := snd (initialize fresh_service) in
  (∀ k, is_Some (data (run es s0) !! k) → occurs_in "-" k) ∧
  (∀ tag, data (run es s0) !! split_head "-" tag = None) ∧
  (∀ tag, current_tag t = Some tag →
          getCurrent t (run es s0) =
            Returns (if inherited (split_head "-" tag)
                     then Inherited (split_head "-" tag) else Undefined)) ∧
  (∀ v, getCurrent t (run es s0) ≠ Returns (Stored v)).
Proof.
  intros Ha Hraw Hc Hl Hreg. simpl.
  assert (falsy_or_undefined (fromJson raw) = true) as Hf by (by rewrite Hc).
  pose proof (initialize_url raw items Ha Hraw Hf Hl) as E.
  destruct (initialize_dormant _ _ _ dormant_fresh E) as (_ & Hs & _).
  rewrite E. rewrite Hc in *. simpl. set (s0 := Service _ _ _ _ _ _ _ _ _ _) in *.
  assert (∀ k, is_Some (data (run es s0) !! k) → occurs_in "-" k) as Hkeys.
  { intros k [v Hv].
    destruct (run_store_lookup 0 es s0 k v Hs Hv)
      as [Hd | (rq & body & _ & Hin & Hk & _)]; [done|].
    apply list_elem_of_fmap in Hin as (lang & -> & Hlang).
    rewrite Forall_forall in Hreg. rewrite <- Hk. by apply Hreg. }
  assert (∀ tag, data (run es s0) !! split_head "-" tag = None) as Hnone.
  { intros tag. destruct (data (run es s0) !! split_head "-" tag) as [v|] eqn:Hv;
      [|done].
    destruct (Hkeys _ (mk_is_Some _ _ Hv)) as (b & a & Hocc).
    by destruct (split_head_clean "-" tag ltac:(discriminate) b a). }
  assert (data (run es s0) !! "__proto__" = None) as Hproto
    by exact (Hnone "__proto__").
  split_and!; try done.
  - intros tag Htag. unfold getCurrent.
    by rewrite Htag, (lookup_data_plain _ _ (Hnone tag) Hproto).
  - intros v. unfold getCurrent. destruct (current_tag t) as [tag|]; [|done].
    intros [= H]. by apply (lookup_data_not_stored _ _ v (Hnone tag) Hproto).
Qed.

(** ** The flag [isInitialized] *)

Lemma on_all_loaded_flag h s : isInitialized (on_all_loaded h s) = true.
Proof.
  unfold on_all_loaded, fulfill.
  by destruct (settle_frame h Resolved (with_isInitialized true s)) as (_ & -> & _).
Qed.

Lemma digest_flag s :
  isInitialized (digest s) =
    match due s with [] => isInitialized s | _ :: _ => true end.
Proof.
  unfold digest. destruct (due s) as [|h l]; [done|].
  assert (∀ l' s', isInitialized s' = true →
            isInitialized (fold_left (λ acc h', on_all_loaded h' acc) l' s') = true)
    as Hfold.
  { induction l' as [|h' l' IH]; intros s' Hs'; [done|].
    simpl. apply IH, on_all_loaded_flag. }
  simpl. apply Hfold, on_all_loaded_flag.
Qed.

(** An answer sets the flag when it is the last one awaited. *)
Lemma answer_flag h i r rq s :
  established h s → inflight s !! i = Some rq →
  isInitialized (answer i r s) =
    if bool_decide (delete i (inflight s) = []) then true else isInitialized s.
Proof.
  intros Hs Hi. pose proof Hs as (_ & _ & Hown & _).
  assert (rq_owner rq = h) as Hrq by (by apply (Forall_lookup_1 _ _ _ _ Hown Hi)).
  unfold answer. rewrite Hi. rewrite Hrq.
  set (s1 := with_inflight (delete i (inflight s)) s).
  set (s2 := match r with
             | HttpOk body => on_fetched rq body s1
             | HttpError => on_fetch_error rq s1
             end).
  assert (inflight s2 = delete i (inflight s) ∧ isInitialized s2 = isInitialized s)
    as [Hin2 Hf2].
  { unfold s2. destruct r as [body|].
    - unfold on_fetched. by destruct (truthy body).
    - unfold on_fetch_error, reject.
      by destruct (settle_frame (rq_owner rq) Rejected
                     (log [ConfigInitFailed; ErrorObject] s1))
        as (_ & -> & _ & -> & _). }
  destruct (awaited h s2) eqn:Haw.
  - apply awaited_true_cons in Haw. rewrite Hin2 in Haw.
    by rewrite bool_decide_eq_false_2.
  - assert (inflight s2 = []) as Hnil.
    { apply (awaited_false_nil h); [|done]. rewrite Hin2. by apply Forall_delete. }
    rewrite Hin2 in Hnil. rewrite bool_decide_eq_true_2 by done.
    apply on_all_loaded_flag.
Qed.

Lemma flag_follows_step h e s :
  established h s → flag_follows h s → flag_follows h (step e s).
Proof.
  intros Hs (F1 & F2 & F3). pose proof Hs as (_ & _ & _ & _ & Hwait & _).
  destruct e as [| |i r]; simpl.
  - by rewrite (initialize_established h s Hs).
  - destruct (digest_spec h s Hs) as (_ & _ & E3 & E4 & _ & _ & E7).
    unfold flag_follows. rewrite digest_flag, E3, E4, E7.
    destruct (due s) as [|h' l] eqn:Hd.
    + by split_and!.
    + assert (inflight s = []) as Hin.
      { destruct (inflight s) eqn:Hin; [done|]. by destruct Hwait. }
      split_and!; try done. by destruct (status_of h s).
  - destruct (inflight s !! i) as [rq|] eqn:Hi.
    + destruct (answer_spec h i r rq s Hs Hi) as (Hs' & E2 & _ & _ & _ & E6).
      assert (inflight s ≠ []) as Hne by (by intros E; rewrite E in Hi).
      destruct (Hwait Hne) as [Hnr Hd].
      destruct Hs' as (_ & _ & _ & _ & Hwait' & _).
      assert (isInitialized s = false) as Hoff.
      { destruct (isInitialized s) eqn:Hb; [|done]. by destruct (proj1 F1 eq_refl). }
      unfold flag_follows. rewrite (answer_flag h i r rq s Hs Hi), E2, E6, Hoff.
      destruct (decide (delete i (inflight s) = [])) as [Hnil|Hnn].
      * rewrite bool_decide_eq_true_2 by done.
        assert (due (answer i r s) = []) as Hdue'.
        { destruct (step_spec h (Answer i r) s Hs) as (Hs'' & _).
          destruct (due (answer i r s)) as [|h' l] eqn:Hdd; [done|].
          (* the due queue of an answer is that of the service *)
          exfalso. revert Hdd. unfold answer. rewrite Hi.
          assert (∀ t, due (on_all_loaded (rq_owner rq) t) = due t) as Hal.
          { intros t. unfold on_all_loaded, fulfill.
            by destruct (settle_frame (rq_owner rq) Resolved (with_isInitialized true t))
              as (_ & _ & _ & _ & -> & _). }
          assert (∀ t, due (on_fetch_error rq t) = due t) as Hfe.
          { intros t. unfold on_fetch_error, reject.
            by destruct (settle_frame (rq_owner rq) Rejected
                           (log [ConfigInitFailed; ErrorObject] t))
              as (_ & _ & _ & _ & -> & _). }
          assert (∀ body t, due (on_fetched rq body t) = due t) as Hft.
          { intros body t. unfold on_fetched. by destruct (truthy body). }
          destruct r as [body|];
            destruct (awaited _ _); rewrite ?Hal, ?Hfe, ?Hft; simpl; by rewrite Hd. }
        rewrite Hdue'. split_and!; try done.
        -- destruct r; destruct (status_of h s); done.
      * rewrite bool_decide_eq_false_2 by done. split_and!; try done.
        -- split; [done|]. by intros [? _].
        -- destruct r; destruct (status_of h s); done.
    + unfold answer. by rewrite Hi.
Qed.

(** With a [th-config] attribute the executor leaves the flag off and
    something awaited or due. *)
Lemma executor_flag h s s' :
  dormant s → defined_truthy (attr "th-config") = true →
  executor h s = (Normal, s') →
  isInitialized s' = false ∧ (inflight s' ≠ [] ∨ due s' ≠ []).
Proof.
  intros (Hp & Hi & Hin & Hd & Hset & Hf) Hcfg.
  unfold executor. rewrite Hi, Hcfg.
  set (raw := default "" (attr "th-config")).
  set (s1 := match fromJson raw with
             | Some c0 => configInitialized c0 "en" s
             | None => log [NotValidJson] s
             end).
  set (s2 := if defined_truthy (attr "rv-langs")
             then match parsed_langs attr fromJson with
                  | Some _ => s1
                  | None => log [CouldNotParseLangs] s1
                  end
             else s1).
  assert (isInitialized s2 = false ∧ inflight s2 = [] ∧ due s2 = [])
    as (Hi2 & Hin2 & Hd2).
  { unfold s2, s1.
    destruct (defined_truthy (attr "rv-langs")),
      (parsed_langs attr fromJson), (fromJson raw); done. }
  destruct (falsy_or_undefined (fromJson raw)).
  - destruct (langs_or_default attr fromJson) as [| | | |items|];
      intros [= <-].
    unfold q_all_then, awaited, issue. simpl. rewrite Hin2. simpl.
    destruct items as [|lang items]; simpl.
    + split; [done|]. right. by destruct (due s2).
    + rewrite Nat.eqb_refl. simpl. split; [done|]. by left.
  - intros [= <-]. simpl. split; [done|]. right. by destruct (due s2).
Qed.

(** X5.  On a page with a [th-config] attribute, once [initialize] has
    returned its handle: the flag [isInitialized] is set exactly when no
    request is awaited and no callback is due; when it is set the handle
    is settled, resolved or rejected, so the flag rises after a failed
    request as after a successful one; and a resolved handle always has
    it set. *)
Theorem isInitialized_when_nothing_is_awaited (es : list event) (h : handle) :
  defined_truthy (attr "th-config") = true →
  fst (initialize fresh_service) = Returns h →
  let s := run es (snd (initialize fresh_service)) in
  (isInitialized s = true ↔ inflight s = [] ∧ due s = []) ∧
  (isInitialized s = true → status_of h s ≠ Pending) ∧
  (status_of h s = Resolved → isInitialized s = true).
Proof.
  intros Hcfg. destruct (initialize fresh_service) as [r s0] eqn:E. simpl.
  intros ->.
  destruct (initialize_dormant _ _ _ dormant_fresh E) as (Hh & Hs & _).
  assert (flag_follows h s0) as Hflag.
  { revert E. unfold initialize. simpl.
    destruct (executor 0 (new_promise fresh_service)) as [c s'] eqn:Ex.
    destruct c; intros [= <- <-].
    assert (dormant (new_promise fresh_service)) as Hn
      by (unfold dormant; by split_and!).
    assert (promises (new_promise fresh_service) !! 0%nat = Some Pending) as Hp0
      by reflexivity.
    destruct (executor_flag 0 _ s' Hn Hcfg Ex) as [Hoff Hbusy].
    destruct (executor_spec 0 _ Normal s' Hn Hp0 Ex) as (_ & Hps & _).
    unfold flag_follows, status_of. simpl. rewrite Hoff, Hps. simpl.
    split_and!; try done. split; [done|]. intros [? ?]. by destruct Hbusy. }
  clear E. revert s0 Hs Hflag. induction es as [|e es IH]; intros s0 Hs Hflag.
  { exact Hflag. }
  change (run (e :: es) s0) with (run es (step e s0)).
  destruct (step_spec h e s0 Hs) as (Hs' & _).
  apply IH; [done|]. by apply flag_follows_step.
Qed.

(** ** What [ready] never does *)

(** X6.  [ready] throws exactly when [initialize] has not returned a
    handle yet; otherwise the promise it returns is never rejected,
    whatever becomes of the handle and of the promises in [extra].  It is
    resolved as soon as the handle is rejected, or the handle is
    resolved and [$q.all(extra)] is settled, and it has logged a failure
    exactly when the handle was rejected or, after a resolved handle, a
    promise of [extra] was. *)
Theorem ready_never_rejects (s : service) (extra : list status) :
  (ready extra s = Throws ↔ initializePromise s = None) ∧
  (∀ c, ready extra s = Returns c → fst c ≠ Rejected) ∧
  (∀ init, fst (ready_promise init extra) = Resolved ↔
           init = Rejected ∨ (init = Resolved ∧ q_all extra ≠ Pending)) ∧
  (∀ init, ReadyFailed ∈ snd (ready_promise init extra) ↔
           init = Rejected ∨ (init = Resolved ∧ Rejected ∈ extra)).
Proof.
  assert (∀ init, fst (ready_promise init extra) ≠ Rejected) as Hnever.
  { intros init. unfold ready_promise, q_catch, q_then.
    destruct init; simpl; try done. by destruct (q_all extra). }
  split_and!.
  - unfold ready. by destruct (initializePromise s).
  - intros c. unfold ready. destruct (initializePromise s); [|done].
    intros [= <-]. apply Hnever.
  - intros init. unfold ready_promise, q_catch, q_then.
    destruct init; simpl.
    + split; [done|]. intros [? | [? _]]; done.
    + destruct (q_all extra); simpl; split; try done.
      * intros [? | [_ ?]]; done.
      * intros _. by right.
      * intros _. by right.
    + split; [by left | done].
  - intros init. rewrite <- q_all_rejected.
    unfold ready_promise, q_catch, q_then.
    destruct init; simpl.
    + rewrite elem_of_nil. split; [done|]. intros [? | [? _]]; done.
    + destruct (q_all extra); simpl; split.
      * intros [?|?%elem_of_nil]%elem_of_cons; done.
      * intros [? | [_ ?]]; done.
      * intros [?|?%elem_of_nil]%elem_of_cons; done.
      * intros [? | [_ ?]]; done.
      * intros _. by right.
      * intros _. apply list_elem_of_further, list_elem_of_here.
    + split; [by left|]. intros _. apply list_elem_of_here.
Qed.

(** ** A language list that is no array *)

Lemma calls_cons e es :
  calls (e :: es) =
    (match e with CallInitialize => 1 | _ => 0 end + calls es)%nat.
Proof. unfold calls. simpl. by destruct e. Qed.

(** A call on a dormant service throws when the url-template branch
    meets a language list that is no array. *)
Lemma initialize_throws raw s :
  attr "th-config" = Some raw → raw ≠ EmptyString →
  falsy_or_undefined (fromJson raw) = true →
  not_array (langs_or_default attr fromJson) = true →
  dormant s →
  fst (initialize s) = Throws ∧ dormant (snd (initialize s)) ∧
  executions (snd (initialize s)) = S (executions s).
Proof.
  intros Ha Hraw Hf Hna Hs. pose proof Hs as (Hp & Hi & _).
  destruct (initialize s) as [r s'] eqn:E.
  pose proof (initialize_dormant _ _ _ Hs E) as Hd.
  revert E. unfold initialize. rewrite Hp.
  destruct (executor (List.length (promises s)) (new_promise s)) as [c s1] eqn:Ex.
  assert (dormant (new_promise s)) as Hn by done.
  assert (promises (new_promise s) !! List.length (promises s) = Some Pending) as Hh.
  { simpl. by rewrite lookup_app_r, Nat.sub_diag by lia. }
  destruct (executor_spec _ _ c s1 Hn Hh Ex) as (Hx & _).
  assert (c = Abrupt) as ->.
  { revert Ex. unfold executor. simpl. rewrite Hi, Ha, (truthy_attr _ Hraw). simpl.
    rewrite Hf. destruct (langs_or_default attr fromJson); try done;
      by intros [= <-]. }
  intros [= <- <-]. simpl. by split_and!.
Qed.

(** X7.  When the [th-config] text is not an inline configuration (it
    does not parse, or parses to a falsy value) and the language list
    parses to a truthy value that is no array, [langs.map] throws inside
    the executor: every call of [initialize] throws, none stores a
    handle or requests anything, each one runs the executor again, and
    [ready] throws for want of a handle. *)
Theorem non_array_language_list_throws (raw : string) (es : list event) :
  attr "th-config" = Some raw → raw ≠ EmptyString →
  falsy_or_undefined (fromJson raw) = true →
  not_array (langs_or_default attr fromJson) = true →
  let s := run es fresh_service in
  Forall (λ r, r = Throws) (returned es fresh_service) ∧
  initializePromise s = None ∧
  inflight s = [] ∧ fanouts s = [] ∧
  executions s = calls es ∧
  ready [] s = Throws.
Proof.
  intros Ha Hraw Hf Hna. simpl.
  assert (∀ s, dormant s →
            Forall (λ r, r = Throws) (returned es s) ∧ dormant (run es s) ∧
            executions (run es s) = (executions s + calls es)%nat) as Hgen.
  { induction es as [|e es IH]; intros s Hs.
    { split_and!; try done; unfold calls; simpl; lia. }
    change (run (e :: es) s) with (run es (step e s)). rewrite calls_cons.
    destruct e as [| |i r].
    - destruct (initialize_throws raw s Ha Hraw Hf Hna Hs) as (Hr & Hd & Hx).
      destruct (IH _ Hd) as (I1 & I2 & I3).
      simpl. split; [|split; [done|]].
      + apply Forall_cons. by split.
      + simpl in I3. rewrite I3, Hx. lia.
    - assert (digest s = s) as Hsame.
      { unfold digest. destruct Hs as (_ & _ & _ & Hd & _).
        rewrite Hd. simpl. destruct s. simpl in *. by subst. }
      destruct (IH _ Hs) as (I1 & I2 & I3). simpl. rewrite Hsame.
      split; [done|]. split; [done|]. simpl in *. lia.
    - assert (answer i r s = s) as Hsame.
      { unfold answer. destruct Hs as (_ & _ & Hin & _). by rewrite Hin. }
      destruct (IH _ Hs) as (I1 & I2 & I3). simpl. rewrite Hsame.
      split; [done|]. split; [done|]. simpl in *. lia. }
  destruct (Hgen _ dormant_fresh) as (G1 & (Hp & _ & Hin & _ & _ & Hfan) & G3).
  split_and!; try done. unfold ready. by rewrite Hp.
Qed.

(** ** An empty language list *)

(** X8.  With a [th-config] text that does not parse and the language
    list [[]], the first call requests nothing; the handle is pending
    until the callback queue is drained and resolved from then on, and
    the store stays empty, so that [getCurrent] finds no configuration
    for any language: it returns [undefined], or the member of
    [Object.prototype] the key names. *)
Theorem empty_language_list_resolves_empty
    (raw : string) (es : list event) (t : translate) :
  attr "th-config" = Some raw → raw ≠ EmptyString → fromJson raw = None →
  langs_or_default attr fromJson = JArr [] →
  let s0 := snd (initialize fresh_service) in
  fst (initialize fresh_service) = Returns 0%nat ∧
  inflight s0 = [] ∧
  status_of 0 s0 = Pending ∧
  status_of 0 (run (Digest :: es) s0) = Resolved ∧
  data (run es s0) = ∅ ∧
  (∀ tag, current_tag t = Some tag →
          getCurrent t (run es s0) =
            Returns (if inherited (split_head "-" tag)
                     then Inherited (split_head "-" tag) else Undefined)) ∧
  (∀ v, getCurrent t (run es s0) ≠ Returns (Stored v)).
Proof.
  intros Ha Hraw Hc Hl. simpl.
  assert (falsy_or_undefined (fromJson raw) = true) as Hf by (by rewrite Hc).
  pose proof (initialize_url raw [] Ha Hraw Hf Hl) as E.
  destruct (initialize_dormant _ _ _ dormant_fresh E) as (_ & Hs & _).
  rewrite E. rewrite Hc in *. simpl. set (s0 := Service _ _ _ _ _ _ _ _ _ _) in *.
  destruct (run_spec 0 es s0 Hs) as (_ & _ & _ & _ & Hq).
  destruct Hq as [_ Hdata]; [done|].
  destruct (digest_spec 0 s0 Hs) as (Hs' & _ & _ & _ & _ & _ & Hst).
  assert (status_of 0 (digest s0) = Resolved) as Hres by done.
  destruct (run_spec 0 es _ Hs') as (_ & _ & _ & Hkeep & _).
  split_and!; try done.
  - change (run (Digest :: es) s0) with (run es (digest s0)).
    rewrite Hkeep; [done | by rewrite Hres].
  - intros tag Htag. unfold getCurrent. rewrite Htag, Hdata.
    change (data s0) with (∅ : gmap string json).
    by rewrite (lookup_data_plain _ ∅ (lookup_empty _) (lookup_empty _)).
  - intros v. unfold getCurrent. destruct (current_tag t) as [tag|]; [|done].
    rewrite Hdata. change (data s0) with (∅ : gmap string json). intros [= H].
    revert H. by apply lookup_data_not_stored.
Qed.

(** ** The console *)

Lemma failure_lines_log ms s :
  failure_lines (log ms s) =
    (failure_lines s +
     List.length
       (List.filter (λ m, match m with ConfigInitFailed => true | _ => false end)
          ms))%nat.
Proof. unfold failure_lines. simpl. by rewrite List.filter_app, length_app. Qed.

Lemma settle_console h st s : failure_lines (settle h st s) = failure_lines s.
Proof.
  unfold failure_lines.
  by destruct (settle_frame h st s) as (_ & _ & _ & _ & _ & -> & _).
Qed.

Lemma on_all_loaded_console h s :
  failure_lines (on_all_loaded h s) = failure_lines s.
Proof. unfold on_all_loaded, fulfill. by rewrite settle_console. Qed.

(** One event adds a failure line exactly when it is the failure of a
    request. *)
Lemma step_failure_lines h e s :
  established h s →
  failure_lines (step e s) = (failure_lines s + failures (answer_of e s))%nat.
Proof.
  intros Hs. destruct e as [| |i r]; simpl.
  - rewrite (initialize_established h s Hs). simpl. unfold failures. simpl. lia.
  - unfold failures. simpl. rewrite Nat.add_0_r. unfold digest.
    assert (∀ l t, failure_lines (fold_left (λ acc h', on_all_loaded h' acc) l t)
                   = failure_lines t) as Hfold.
    { induction l as [|h' l IH]; intros t; [done|].
      simpl. by rewrite IH, on_all_loaded_console. }
    by rewrite Hfold.
  - unfold answer. destruct (inflight s !! i) as [rq|] eqn:Hi.
    + assert (∀ t, failure_lines
                     (if awaited (rq_owner rq) t then t
                      else on_all_loaded (rq_owner rq) t) = failure_lines t) as Hif.
      { intros t. destruct (awaited _ t); [done|]. apply on_all_loaded_console. }
      rewrite Hif. destruct r as [body|]; unfold failures; simpl.
      * unfold on_fetched. destruct (truthy body); simpl; unfold failure_lines;
          simpl; lia.
      * unfold on_fetch_error, reject. rewrite settle_console, failure_lines_log.
        simpl. unfold failure_lines. simpl. lia.
    + unfold failures. simpl. lia.
Qed.

Lemma failures_app l1 l2 : failures (l1 ++ l2) = (failures l1 + failures l2)%nat.
Proof. unfold failures. by rewrite List.filter_app, length_app. Qed.

Lemma run_failure_lines h es s :
  established h s →
  failure_lines (run es s) = (failure_lines s + failures (answered es s))%nat.
Proof.
  revert s. induction es as [|e es IH]; intros s Hs.
  { simpl. unfold failures. simpl. lia. }
  change (run (e :: es) s) with (run es (step e s)).
  rewrite answered_cons, failures_app.
  destruct (step_spec h e s Hs) as (Hs' & _).
  rewrite (IH _ Hs'), (step_failure_lines h e s Hs). lia.
Qed.

(** The executor writes no failure line. *)
Lemma executor_failure_lines h s :
  failure_lines (snd (executor h s)) = failure_lines s.
Proof.
  unfold executor.
  destruct (isInitialized s); [apply settle_console|].
  destruct (defined_truthy (attr "th-config")); [|done].
  set (raw := default "" (attr "th-config")).
  set (s1 := match fromJson raw with
             | Some c0 => configInitialized c0 "en" s
             | None => log [NotValidJson] s
             end).
  set (s2 := if defined_truthy (attr "rv-langs")
             then match parsed_langs attr fromJson with
                  | Some _ => s1
                  | None => log [CouldNotParseLangs] s1
                  end
             else s1).
  assert (failure_lines s2 = failure_lines s) as H2.
  { unfold s2, s1.
    destruct (defined_truthy (attr "rv-langs")),
      (parsed_langs attr fromJson), (fromJson raw);
      rewrite ?failure_lines_log; simpl; unfold failure_lines; simpl; lia. }
  destruct (falsy_or_undefined (fromJson raw)); [|done].
  destruct (langs_or_default attr fromJson); try done.
  simpl. unfold q_all_then. by destruct (awaited _ _).
Qed.

(** X9.  Once [initialize] has returned its handle, the console holds
    one line [Config initialization failed] for each request that
    failed, those that failed after the handle was rejected included,
    and none for any other reason. *)
Theorem every_failed_request_is_logged (es : list event) (h : handle) :
  fst (initialize fresh_service) = Returns h →
  let s0 := snd (initialize fresh_service) in
  failure_lines s0 = 0%nat ∧
  failure_lines (run es s0) = failures (answered es s0).
Proof.
  destruct (initialize fresh_service) as [r s0] eqn:E. simpl. intros ->.
  destruct (initialize_dormant _ _ _ dormant_fresh E) as (_ & Hs & _).
  assert (failure_lines s0 = 0%nat) as H0.
  { revert E. unfold initialize. simpl.
    pose proof (executor_failure_lines 0 (new_promise fresh_service)) as Hx.
    destruct (executor 0 (new_promise fresh_service)) as [c s'].
    destruct c; intros [= <- <-]. simpl in Hx. exact Hx. }
  split; [done|]. rewrite (run_failure_lines h es s0 Hs). lia.
Qed.

(** ** The store on every page *)

(** One event leaves the store as it is or writes one entry, the
    defaults merged with something. *)
Lemma step_writes e s :
  data (step e s) = data s ∨
  ∃ k c, data (step e s) = <[k := angular_merge configDefaults c]> (data s).
Proof.
  assert (∀ h st t, data (settle h st t) = data t) as Hset.
  { intros h st t. by destruct (settle_frame h st t) as (_ & _ & -> & _). }
  assert (∀ h t, data (on_all_loaded h t) = data t) as Hal.
  { intros h t. unfold on_all_loaded, fulfill. by rewrite Hset. }
  destruct e as [| |i r]; simpl.
  - unfold initialize. destruct (initializePromise s); [by left|].
    set (h := List.length (promises s)).
    assert (data (snd (executor h (new_promise s))) = data s ∨
            ∃ k c, data (snd (executor h (new_promise s)))
                   = <[k := angular_merge configDefaults c]> (data s)) as Hex.
    { unfold executor. simpl.
      destruct (isInitialized s); [left; simpl; unfold fulfill; by rewrite Hset|].
      destruct (defined_truthy (attr "th-config")).
      - set (raw := default "" (attr "th-config")).
        assert (∀ t u : service, data u = data t →
                  data (if defined_truthy (attr "rv-langs")
                        then match parsed_langs attr fromJson with
                             | Some _ => u
                             | None => log [CouldNotParseLangs] u
                             end
                        else u) = data t) as H2.
        { intros t u Hu.
          by destruct (defined_truthy (attr "rv-langs")),
            (parsed_langs attr fromJson). }
        destruct (fromJson raw) as [c|] eqn:Hc.
        + right. exists "en", c.
          destruct (falsy_or_undefined (Some c));
            [destruct (langs_or_default attr fromJson)|]; simpl;
            unfold q_all_then; try destruct (awaited _ _); simpl;
            by rewrite (H2 (configInitialized c "en" (new_promise s))).
        + left.
          destruct (falsy_or_undefined None);
            [destruct (langs_or_default attr fromJson)|]; simpl;
            unfold q_all_then; try destruct (awaited _ _); simpl;
            by rewrite (H2 (log [NotValidJson] (new_promise s))).
      - right. by exists "en", (JObj []). }
    destruct (executor h (new_promise s)) as [c s']. simpl in Hex.
    by destruct c.
  - left. unfold digest.
    assert (∀ l t, data (fold_left (λ acc h', on_all_loaded h' acc) l t) = data t)
      as Hfold.
    { induction l as [|h' l IH]; intros t; [done|]. simpl. by rewrite IH, Hal. }
    by rewrite Hfold.
  - unfold answer. destruct (inflight s !! i) as [rq|]; [|by left].
    assert (∀ t, data (if awaited (rq_owner rq) t then t
                       else on_all_loaded (rq_owner rq) t) = data t) as Hif.
    { intros t. destruct (awaited _ t); [done|]. apply Hal. }
    rewrite Hif. destruct r as [body|].
    + unfold on_fetched. destruct (truthy body); [|by left].
      right. by exists (rq_lang rq), body.
    + left. unfold on_fetch_error, reject. by rewrite Hset.
Qed.

(** X10.  On every page and over every run, the store only grows: a
    language that has an entry keeps one (a later answer for the same
    language may overwrite it), and every entry is the defaults merged
    with something.  No event deletes an entry or stores anything else. *)
Theorem store_only_grows (es1 es2 : list event) :
  (∀ k, is_Some (data (run es1 fresh_service) !! k) →
        is_Some (data (run (es1 ++ es2) fresh_service) !! k)) ∧
  (∀ k v, data (run es1 fresh_service) !! k = Some v →
          ∃ c, v = angular_merge configDefaults c).
Proof.
  split.
  - rewrite run_app. generalize (run es1 fresh_service). clear es1.
    induction es2 as [|e es IH]; intros s k Hk; [done|].
    change (run (e :: es) s) with (run es (step e s)). apply IH.
    destruct (step_writes e s) as [-> | (k' & c & ->)]; [done|].
    destruct (decide (k' = k)) as [->|Hne].
    + rewrite lookup_insert_eq. by eexists.
    + by rewrite lookup_insert_ne.
  - induction es1 as [|e es IH] using rev_ind; intros k v.
    { simpl. intros Hk. by rewrite lookup_empty in Hk. }
    rewrite run_app. change (run [e] ?s) with (step e s).
    destruct (step_writes e (run es fresh_service)) as [-> | (k' & c & ->)];
      [apply IH|].
    destruct (decide (k' = k)) as [->|Hne].
    + rewrite lookup_insert_eq. intros [= <-]. by exists c.
    + rewrite lookup_insert_ne by done. apply IH.
Qed.

(** ** The tag [getCurrent] reads *)

(** X12.  [getCurrent] throws exactly when there is no proposed language
    (or an empty one) and no language in use; otherwise it returns.  The
    key it looks up holds no hyphen, cutting it again changes nothing,
    and two language services whose tags agree before the first hyphen
    get the same answer. *)
Theorem getCurrent_throws_without_language (t : translate) (s : service) :
  (getCurrent t s = Throws ↔
   defined_truthy (proposedLanguage t) = false ∧ use t = None) ∧
  (∀ tag, absent_from "-" (split_head "-" tag)) ∧
  (∀ tag, split_head "-" (split_head "-" tag) = split_head "-" tag) ∧
  (∀ t', split_head "-" <$> current_tag t' = split_head "-" <$> current_tag t →
         getCurrent t' s = getCurrent t s).
Proof.
  assert (∀ tag, absent_from "-" (split_head "-" tag)) as Hclean.
  { intros tag. by apply split_head_clean. }
  split_and!; try done.
  - unfold getCurrent, current_tag.
    destruct (defined_truthy (proposedLanguage t)) eqn:Hp.
    + destruct (proposedLanguage t); [|done]. split; [done|]. by intros [? _].
    + destruct (use t); [|done]. split; [done|]. by intros [_ ?].
  - intros tag. unfold split_head at 1.
    destruct (find_sub "-" (split_head "-" tag)) as [[b a]|] eqn:F; [|done].
    by destruct (Hclean tag _ _ (find_sub_Some _ _ _ _ F)).
  - intros t'. unfold getCurrent.
    destruct (current_tag t'), (current_tag t); simpl; try done.
    by intros [= ->].
Qed.

End Properties.

(** ** Sample runs *)


(** No configuration: the handle is returned, and three events later it
    is still pending. *)
Lemma absent_config_never_settles_witness :
  defined_truthy (no_config "th-config") = false ∧
  status_of 0
    (run no_config sample_fromJson sample_defaults
       [Digest; CallInitialize; Answer 0 HttpError]
       (snd (initialize no_config sample_fromJson sample_defaults fresh_service)))
    = Pending.
Proof.
  split; [reflexivity|].
  exact (proj1 (proj2 (proj2 (proj2
    (absent_config_never_settles no_config sample_fromJson sample_defaults
       [Digest; CallInitialize; Answer 0 HttpError] eq_refl))))).
Defined.


(** Three calls, with an answer and a digest between them. *)
Lemma initialize_idempotent_witness :
  head (returned template_page sample_fromJson sample_defaults
          [CallInitialize; Answer 0 (HttpOk inline_value); CallInitialize;
           Digest; CallInitialize] fresh_service) = Some (Returns 0%nat) ∧
  returned template_page sample_fromJson sample_defaults
    [CallInitialize; Answer 0 (HttpOk inline_value); CallInitialize;
     Digest; CallInitialize] fresh_service
    = [Returns 0%nat; Returns 0%nat; Returns 0%nat] ∧
  executions (run template_page sample_fromJson sample_defaults
                [CallInitialize; Answer 0 (HttpOk inline_value); CallInitialize;
                 Digest; CallInitialize] fresh_service) = 1%nat.
Proof.
  split; [reflexivity|]. split; [reflexivity|].
  exact (proj1 (proj2
    (initialize_idempotent template_page sample_fromJson sample_defaults
       [CallInitialize; Answer 0 (HttpOk inline_value); CallInitialize;
        Digest; CallInitialize] 0%nat eq_refl))).
Defined.

(** C3: the claim fails when the executor throws.  With a url template
    and the language list ["en"] (a JSON string, not an array)
    [langs.map] is not a function: each of the three calls throws, no
    handle is stored, and the executor has read and parsed the attributes
    three times. *)
Lemma initialize_runs_again_after_throw :
  string_langs_page "th-config" = Some "cfg.$LANG.json" ∧
  langs_fromJson "cfg.$LANG.json" = None ∧
  langs_or_default string_langs_page langs_fromJson = JStr "en" ∧
  returned string_langs_page langs_fromJson sample_defaults
    [CallInitialize; CallInitialize; CallInitialize] fresh_service
    = [Throws; Throws; Throws] ∧
  initializePromise
    (run string_langs_page langs_fromJson sample_defaults
       [CallInitialize; CallInitialize; CallInitialize] fresh_service) = None ∧
  executions
    (run string_langs_page langs_fromJson sample_defaults
       [CallInitialize; CallInitialize; CallInitialize] fresh_service) = 3%nat ∧
  console
    (run string_langs_page langs_fromJson sample_defaults
       [CallInitialize; CallInitialize; CallInitialize] fresh_service)
    = [NotValidJson; NotValidJson; NotValidJson].
Proof. by vm_compute. Qed.

(** C4: the claim fails for the JSON text [null].  It is valid JSON, yet
    the first call requests the url ["null"] once per language, and
    after the answers [getCurrent] returns the defaults merged with what
    was fetched, which is not the defaults merged with [null]. *)
Lemma falsy_inline_config_is_fetched :
  sample_fromJson "null" = Some JNull ∧
  fanouts (snd (initialize null_page sample_fromJson sample_defaults fresh_service))
    = [["null"; "null"]] ∧
  getCurrent (Translate None (Some "en"))
    (run null_page sample_fromJson sample_defaults
       [CallInitialize; Answer 0 (HttpOk inline_value); Answer 0 (HttpOk JNull)]
       fresh_service)
    = Returns (Stored (angular_merge sample_defaults inline_value)) ∧
  angular_merge sample_defaults inline_value ≠ angular_merge sample_defaults JNull.
Proof.
  split; [reflexivity|]. split; [reflexivity|]. split; [by vm_compute|].
  vm_compute. discriminate.
Qed.

(** The inline configuration of the samples, read under the tag
    ["en-CA"] after a digest and a second call. *)
Lemma inline_config_stored_under_en_witness :
  inline_page "th-config" = Some inline_text ∧
  inline_text ≠ EmptyString ∧
  sample_fromJson inline_text = Some inline_value ∧
  truthy inline_value = true ∧
  current_tag (Translate None (Some "en-CA")) = Some "en-CA" ∧
  split_head "-" "en-CA" = "en" ∧
  getCurrent (Translate None (Some "en-CA"))
    (run inline_page sample_fromJson sample_defaults [Digest; CallInitialize]
       (snd (initialize inline_page sample_fromJson sample_defaults fresh_service)))
    = Returns (Stored (angular_merge sample_defaults inline_value)) ∧
  fanouts
    (run inline_page sample_fromJson sample_defaults [Digest; CallInitialize]
       (snd (initialize inline_page sample_fromJson sample_defaults fresh_service)))
    = [].
Proof.
  assert (inline_text ≠ EmptyString) as Hne by (vm_compute; discriminate).
  pose proof (inline_config_stored_under_en inline_page sample_fromJson
                sample_defaults inline_text inline_value [Digest; CallInitialize]
                (Translate None (Some "en-CA")) "en-CA"
                eq_refl Hne eq_refl eq_refl eq_refl eq_refl)
    as (_ & _ & H3 & _ & H5 & _).
  split; [reflexivity|]. split; [exact Hne|]. split; [reflexivity|].
  split; [reflexivity|]. split; [reflexivity|]. split; [reflexivity|].
  split; [exact H5 | exact H3].
Defined.



(** C6: the claim fails when the handle is rejected.  The request for
    ["fr"] has failed, a promise of [extra] is still pending, and the
    promise of [ready] is resolved already. *)
Lemma ready_skips_extra_after_rejection :
  status_of 0
    (run template_page sample_fromJson sample_defaults
       [CallInitialize; Answer 1 HttpError] fresh_service) = Rejected ∧
  ready [Pending]
    (run template_page sample_fromJson sample_defaults
       [CallInitialize; Answer 1 HttpError] fresh_service)
    = Returns (Resolved, [ReadyFailed]).
Proof. split; reflexivity. Qed.

(** The handle resolved, one promise of [extra] resolved and one
    pending: [ready] is pending. *)
Lemma ready_waits_on_extra_after_success_witness :
  initializePromise
    (run inline_page sample_fromJson sample_defaults
       [CallInitialize; Digest] fresh_service) = Some 0%nat ∧
  status_of 0
    (run inline_page sample_fromJson sample_defaults
       [CallInitialize; Digest] fresh_service) = Resolved ∧
  ready [Resolved; Pending]
    (run inline_page sample_fromJson sample_defaults
       [CallInitialize; Digest] fresh_service)
    = Returns (Pending, [ReadyResolved]).
Proof.
  split; [reflexivity|]. split; [reflexivity|].
  exact (proj1
    (ready_waits_on_extra_after_success
       (run inline_page sample_fromJson sample_defaults
          [CallInitialize; Digest] fresh_service)
       0%nat [Resolved; Pending] eq_refl)).
Defined.

(** C7: the claim fails before the first call of [initialize], where
    [ready] throws, and on a page without configuration, where the
    promise of [ready([])] is pending whatever happens. *)
Lemma ready_throws_or_stays_pending :
  ready [] fresh_service = Throws ∧
  ∀ es,
    ready []
      (run no_config sample_fromJson sample_defaults es
         (snd (initialize no_config sample_fromJson sample_defaults fresh_service)))
    = Returns (Pending, []).
Proof.
  split; [reflexivity|]. intros es.
  rewrite (initialize_absent no_config sample_fromJson sample_defaults eq_refl).
  simpl. set (s0 := Service _ _ _ _ _ _ _ _ _ _).
  assert (established 0 s0) as Hs.
  { unfold established, settlements, status_of. simpl. split_and!; try done. lia. }
  by rewrite (run_quiescent no_config sample_fromJson sample_defaults 0 es s0 Hs).
Qed.

(** The request for ["fr"] has failed and the other is still awaited:
    [ready([])] is resolved and has logged the failure. *)
Lemma ready_settles_once_handle_settled_witness :
  initializePromise
    (run template_page sample_fromJson sample_defaults
       [CallInitialize; Answer 1 HttpError] fresh_service) = Some 0%nat ∧
  status_of 0
    (run template_page sample_fromJson sample_defaults
       [CallInitialize; Answer 1 HttpError] fresh_service) ≠ Pending ∧
  ready []
    (run template_page sample_fromJson sample_defaults
       [CallInitialize; Answer 1 HttpError] fresh_service)
    = Returns (Resolved, [ReadyFailed]).
Proof.
  assert (status_of 0
            (run template_page sample_fromJson sample_defaults
               [CallInitialize; Answer 1 HttpError] fresh_service) ≠ Pending)
    as Hne by (vm_compute; discriminate).
  split; [reflexivity|]. split; [exact Hne|].
  exact (ready_settles_once_handle_settled
           (run template_page sample_fromJson sample_defaults
              [CallInitialize; Answer 1 HttpError] fresh_service)
           0%nat eq_refl Hne).
Defined.

(** The template is no JSON and no language list is declared. *)
Lemma malformed_json_falls_through_witness :
  template_page "th-config" = Some "cfg.$LANG.json" ∧
  sample_fromJson "cfg.$LANG.json" = None ∧
  template_page "rv-langs" = None ∧
  inflight (snd (initialize template_page sample_fromJson sample_defaults
                   fresh_service))
    = [Request 0 "en" "cfg.en.json"; Request 0 "fr" "cfg.fr.json"] ∧
  head (console (snd (initialize template_page sample_fromJson sample_defaults
                        fresh_service))) = Some NotValidJson.
Proof.
  assert ("cfg.$LANG.json" ≠ EmptyString) as Hne by discriminate.
  pose proof (malformed_json_falls_through template_page sample_fromJson
                sample_defaults "cfg.$LANG.json" eq_refl Hne eq_refl
                (or_introl eq_refl))
    as (_ & H2 & H3 & _).
  split; [reflexivity|]. split; [reflexivity|]. split; [reflexivity|].
  split; [exact H3 | exact H2].
Defined.

(** C9: the claim fails for a key that names a member of
    [Object.prototype].  Both languages of the template page are loaded;
    no entry was ever stored under ["constructor"], yet with the language
    ["constructor-CA"] in use [getCurrent] returns the inherited member,
    not [undefined]; so it does on the fresh service for ["toString"]. *)
Lemma unpopulated_key_gives_inherited_member :
  current_tag (Translate None (Some "constructor-CA")) = Some "constructor-CA" ∧
  split_head "-" "constructor-CA" = "constructor" ∧
  data (run template_page sample_fromJson sample_defaults
          [CallInitialize; Answer 0 (HttpOk inline_value);
           Answer 0 (HttpOk inline_value)] fresh_service) !! "constructor" = None ∧
  getCurrent (Translate None (Some "constructor-CA"))
    (run template_page sample_fromJson sample_defaults
       [CallInitialize; Answer 0 (HttpOk inline_value);
        Answer 0 (HttpOk inline_value)] fresh_service)
    = Returns (Inherited "constructor") ∧
  getCurrent (Translate None (Some "fr-CA"))
    (run template_page sample_fromJson sample_defaults
       [CallInitialize; Answer 0 (HttpOk inline_value);
        Answer 0 (HttpOk inline_value)] fresh_service)
    = Returns (Stored (angular_merge sample_defaults inline_value)) ∧
  getCurrent (Translate (Some "toString") None) fresh_service
    = Returns (Inherited "toString") ∧
  getCurrent (Translate None (Some "de")) fresh_service = Returns Undefined.
Proof. by vm_compute. Qed.



(** The two answers in the order ["fr"], ["en"]. *)
Lemma two_languages_two_entries_witness :
  template_page "th-config" = Some "cfg.$LANG.json" ∧
  sample_fromJson "cfg.$LANG.json" = None ∧
  langs_or_default template_page sample_fromJson = JArr [JStr "en"; JStr "fr"] ∧
  dom (data (run template_page sample_fromJson sample_defaults
               [Answer 1 (HttpOk inline_value); Answer 0 (HttpOk inline_value)]
               (snd (initialize template_page sample_fromJson sample_defaults
                       fresh_service))))
    = {[ "en"; "fr" ]}.
Proof.
  assert (1 ≤ 1)%nat as Hi by lia.
  split; [reflexivity|]. split; [reflexivity|]. split; [reflexivity|].
  exact (proj1 (proj2
    (two_languages_two_entries template_page sample_fromJson sample_defaults
       1%nat inline_value inline_value eq_refl eq_refl eq_refl Hi eq_refl eq_refl))).
Defined.

(** The inline configuration of the samples. *)
Lemma inline_config_resolves_on_digest_witness :
  inline_page "th-config" = Some inline_text ∧
  sample_fromJson inline_text = Some inline_value ∧
  truthy inline_value = true ∧
  status_of 0
    (digest (snd (initialize inline_page sample_fromJson sample_defaults
                    fresh_service))) = Resolved.
Proof.
  assert (inline_text ≠ EmptyString) as Hne by (vm_compute; discriminate).
  split; [reflexivity|]. split; [reflexivity|]. split; [reflexivity|].
  exact (proj1 (proj2
    (inline_config_resolves_on_digest inline_page sample_fromJson sample_defaults
       inline_text inline_value [] eq_refl Hne eq_refl eq_refl))).
Defined.

(** ** Further sample runs *)

(** X11.  With an inline configuration whose value is truthy, the
    language list plays no part: two pages with the same [th-config]
    text and any [rv-langs] attributes, missing, unparsable or no array
    at all, leave the service in the same state after the first call,
    the console apart; in particular the call returns and requests
    nothing. *)
Theorem inline_config_ignores_language_list
    (attr1 attr2 : string → option string) (fromJson : string → option json)
    (configDefaults : json) (raw : string) (c : json) :
  attr1 "th-config" = Some raw → attr2 "th-config" = Some raw →
  raw ≠ EmptyString → fromJson raw = Some c → truthy c = true →
  let r1 := initialize attr1 fromJson configDefaults fresh_service in
  let r2 := initialize attr2 fromJson configDefaults fresh_service in
  fst r1 = Returns 0%nat ∧ fst r2 = Returns 0%nat ∧
  initializePromise (snd r1) = initializePromise (snd r2) ∧
  isInitialized (snd r1) = isInitialized (snd r2) ∧
  data (snd r1) = data (snd r2) ∧
  promises (snd r1) = promises (snd r2) ∧
  settled (snd r1) = settled (snd r2) ∧
  inflight (snd r1) = [] ∧ inflight (snd r2) = [] ∧
  due (snd r1) = due (snd r2) ∧
  executions (snd r1) = executions (snd r2) ∧
  fanouts (snd r1) = [] ∧ fanouts (snd r2) = [].
Proof.
  intros H1 H2 Hraw Hc Ht. simpl.
  rewrite (initialize_inline attr1 fromJson configDefaults raw c H1 Hraw Hc Ht).
  rewrite (initialize_inline attr2 fromJson configDefaults raw c H2 Hraw Hc Ht).
  simpl. by split_and!.
Qed.

(** The inline configuration, once without a language list and once
    with a list that is a JSON string. *)
Lemma inline_config_ignores_language_list_witness :
  inline_page "th-config" = Some inline_text ∧
  inline_string_langs_page "th-config" = Some inline_text ∧
  langs_fromJson inline_text = Some inline_value ∧
  not_array (langs_or_default inline_string_langs_page langs_fromJson) = true ∧
  fst (initialize inline_string_langs_page langs_fromJson sample_defaults
         fresh_service) = Returns 0%nat ∧
  data (snd (initialize inline_page langs_fromJson sample_defaults fresh_service))
    = data (snd (initialize inline_string_langs_page langs_fromJson
                   sample_defaults fresh_service)).
Proof.
  assert (inline_text ≠ EmptyString) as Hne by (vm_compute; discriminate).
  pose proof (inline_config_ignores_language_list inline_page
                inline_string_langs_page langs_fromJson sample_defaults
                inline_text inline_value eq_refl eq_refl Hne eq_refl eq_refl)
    as (_ & H2 & _ & _ & H5 & _).
  split; [reflexivity|]. split; [reflexivity|]. split; [reflexivity|].
  split; [reflexivity|]. split; [exact H2 | exact H5].
Defined.

(** An answer with data, then one without: the store is what the two
    answers make of the empty store. *)
Lemma store_follows_the_answers_witness :
  fst (initialize template_page sample_fromJson sample_defaults fresh_service)
    = Returns 0%nat ∧
  data (run template_page sample_fromJson sample_defaults
          [Answer 1 (HttpOk inline_value); Digest; Answer 0 (HttpOk JNull)]
          (snd (initialize template_page sample_fromJson sample_defaults
                  fresh_service)))
    = store_after sample_defaults
        (answered template_page sample_fromJson sample_defaults
           [Answer 1 (HttpOk inline_value); Digest; Answer 0 (HttpOk JNull)]
           (snd (initialize template_page sample_fromJson sample_defaults
                   fresh_service)))
        (data (snd (initialize template_page sample_fromJson sample_defaults
                      fresh_service))).
Proof.
  split; [reflexivity|].
  exact (proj1
    (store_follows_the_answers template_page sample_fromJson sample_defaults
       [Answer 1 (HttpOk inline_value); Digest; Answer 0 (HttpOk JNull)]
       0%nat eq_refl)).
Defined.

(** The languages ["en-CA"] and ["fr-CA"], both answered with data, and
    the language in use ["fr-CA"]. *)
Lemma regional_languages_are_never_read_witness :
  regional_page "th-config" = Some "cfg.$LANG.json" ∧
  langs_fromJson "cfg.$LANG.json" = None ∧
  langs_or_default regional_page langs_fromJson
    = JArr [JStr "en-CA"; JStr "fr-CA"] ∧
  Forall (λ lang, occurs_in "-" (js_ToString lang)) [JStr "en-CA"; JStr "fr-CA"] ∧
  is_Some (data (run regional_page langs_fromJson sample_defaults
                   [Answer 0 (HttpOk inline_value); Answer 0 (HttpOk inline_value)]
                   (snd (initialize regional_page langs_fromJson sample_defaults
                           fresh_service))) !! "fr-CA") ∧
  getCurrent (Translate None (Some "fr-CA"))
    (run regional_page langs_fromJson sample_defaults
       [Answer 0 (HttpOk inline_value); Answer 0 (HttpOk inline_value)]
       (snd (initialize regional_page langs_fromJson sample_defaults
               fresh_service)))
    = Returns Undefined.
Proof.
  assert ("cfg.$LANG.json" ≠ EmptyString) as Hne by discriminate.
  assert (Forall (λ lang, occurs_in "-" (js_ToString lang))
            [JStr "en-CA"; JStr "fr-CA"]) as Hreg.
  { apply Forall_cons_2; [exists "en", "CA"; reflexivity|].
    apply Forall_cons_2; [exists "fr", "CA"; reflexivity|]. apply Forall_nil_2. }
  pose proof (regional_languages_are_never_read regional_page langs_fromJson
                sample_defaults "cfg.$LANG.json" [JStr "en-CA"; JStr "fr-CA"]
                [Answer 0 (HttpOk inline_value); Answer 0 (HttpOk inline_value)]
                (Translate None (Some "fr-CA"))
                eq_refl Hne eq_refl eq_refl Hreg)
    as (_ & _ & H & _).
  split; [reflexivity|]. split; [reflexivity|]. split; [reflexivity|].
  split; [exact Hreg|]. split; [vm_compute; by eexists|].
  exact (H "fr-CA" eq_refl).
Defined.

(** The request for ["fr"] fails, the one for ["en"] is answered: the
    handle is rejected and the flag is set. *)
Lemma isInitialized_when_nothing_is_awaited_witness :
  defined_truthy (template_page "th-config") = true ∧
  fst (initialize template_page sample_fromJson sample_defaults fresh_service)
    = Returns 0%nat ∧
  status_of 0
    (run template_page sample_fromJson sample_defaults
       [Answer 1 HttpError; Answer 0 (HttpOk inline_value)]
       (snd (initialize template_page sample_fromJson sample_defaults
               fresh_service))) = Rejected ∧
  isInitialized
    (run template_page sample_fromJson sample_defaults
       [Answer 1 HttpError; Answer 0 (HttpOk inline_value)]
       (snd (initialize template_page sample_fromJson sample_defaults
               fresh_service))) = true.
Proof.
  split; [reflexivity|]. split; [reflexivity|]. split; [reflexivity|].
  apply (proj1
    (isInitialized_when_nothing_is_awaited template_page sample_fromJson
       sample_defaults [Answer 1 HttpError; Answer 0 (HttpOk inline_value)]
       0%nat eq_refl eq_refl)).
  split; reflexivity.
Defined.

(** A language list that is a JSON string: two calls, both throw. *)
Lemma non_array_language_list_throws_witness :
  string_langs_page "th-config" = Some "cfg.$LANG.json" ∧
  falsy_or_undefined (langs_fromJson "cfg.$LANG.json") = true ∧
  langs_or_default string_langs_page langs_fromJson = JStr "en" ∧
  returned string_langs_page langs_fromJson sample_defaults
    [CallInitialize; Digest; CallInitialize] fresh_service = [Throws; Throws] ∧
  executions (run string_langs_page langs_fromJson sample_defaults
                [CallInitialize; Digest; CallInitialize] fresh_service)
    = calls [CallInitialize; Digest; CallInitialize].
Proof.
  assert ("cfg.$LANG.json" ≠ EmptyString) as Hne by discriminate.
  pose proof (non_array_language_list_throws string_langs_page langs_fromJson
                sample_defaults "cfg.$LANG.json"
                [CallInitialize; Digest; CallInitialize]
                eq_refl Hne eq_refl eq_refl)
    as (_ & _ & _ & _ & H & _).
  split; [reflexivity|]. split; [reflexivity|]. split; [reflexivity|].
  split; [reflexivity | exact H].
Defined.

(** The empty language list. *)
Lemma empty_language_list_resolves_empty_witness :
  empty_langs_page "th-config" = Some "cfg.$LANG.json" ∧
  langs_fromJson "cfg.$LANG.json" = None ∧
  langs_or_default empty_langs_page langs_fromJson = JArr [] ∧
  status_of 0
    (run empty_langs_page langs_fromJson sample_defaults [Digest; CallInitialize]
       (snd (initialize empty_langs_page langs_fromJson sample_defaults
               fresh_service))) = Resolved.
Proof.
  assert ("cfg.$LANG.json" ≠ EmptyString) as Hne by discriminate.
  pose proof (empty_language_list_resolves_empty empty_langs_page langs_fromJson
                sample_defaults "cfg.$LANG.json" [CallInitialize]
                (Translate None (Some "en")) eq_refl Hne eq_refl eq_refl)
    as (_ & _ & _ & H & _).
  split; [reflexivity|]. split; [reflexivity|]. split; [reflexivity|]. exact H.
Defined.

(** Both requests fail: two failure lines. *)
Lemma every_failed_request_is_logged_witness :
  fst (initialize template_page sample_fromJson sample_defaults fresh_service)
    = Returns 0%nat ∧
  failures
    (answered template_page sample_fromJson sample_defaults
       [Answer 0 HttpError; Answer 0 HttpError]
       (snd (initialize template_page sample_fromJson sample_defaults
               fresh_service))) = 2%nat ∧
  failure_lines
    (run template_page sample_fromJson sample_defaults
       [Answer 0 HttpError; Answer 0 HttpError]
       (snd (initialize template_page sample_fromJson sample_defaults
               fresh_service)))
    = failures
        (answered template_page sample_fromJson sample_defaults
           [Answer 0 HttpError; Answer 0 HttpError]
           (snd (initialize template_page sample_fromJson sample_defaults
                   fresh_service))).
Proof.
  split; [reflexivity|]. split; [reflexivity|].
  exact (proj2
    (every_failed_request_is_logged template_page sample_fromJson sample_defaults
       [Answer 0 HttpError; Answer 0 HttpError] 0%nat eq_refl)).
Defined.
